(** * react-native-var-locker: SecureMap and VarLocker

    A shallow embedding of [src/secureMap.js] (the encrypted store registry
    and the [_SecureMap] handle) and of the [VarLocker] class built on it.

    - JS strings are sequences of UTF-16 code units ([list N]).
    - The module-level [_staticTagMap] (an Immutable.js [Map] of [Map]s) is a
      [gmap] of [gmap]s; every update replaces the whole value, as in the
      source.
    - The native [RSAKeychain] of react-native-rsa-native is not part of the
      repository: it is a parameter ([Provider]).
    - A promise is a finite tree: settled, waiting for the native keychain,
      or a queued [.then]/[.catch] callback that will run against whatever
      the memory is when its turn comes. *)

From Stdlib Require Import NArith Ascii.
From stdpp Require Import base option strings list gmap pretty.

(** ** JS strings *)

Abbreviation jstring := (list N).

(** The code units of an ASCII literal. *)
Definition str (s : string) : jstring :=
  N_of_ascii <$> String.list_ascii_of_string s.

(** [/\s/]: ECMAScript WhiteSpace and LineTerminator code units. *)
Definition isWhiteSpace (c : N) : bool :=
  ((9 <=? c) && (c <=? 13) || (c =? 32) || (c =? 160) || (c =? 5760)
   || (8192 <=? c) && (c <=? 8202) || (c =? 8232) || (c =? 8233)
   || (c =? 8239) || (c =? 8287) || (c =? 12288) || (c =? 65279))%N.

Definition PFX_TAG : jstring := str "com.github.superguineapig".

(** [Boolean(id) && typeof id === 'string' && !/\s/.test(id)]; the argument is
    a string by its type, and a string is falsy exactly when it is empty. *)
Definition _keyCheck (id : jstring) : bool :=
  negb (bool_decide (id = [])) && negb (existsb isWhiteSpace id).

(** [`${PFX_TAG}+${id}`] *)
Definition _getInternalId (id : jstring) : jstring :=
  PFX_TAG ++ str "+" ++ id.

(** ** Errors

    One constructor per [throw new Error(...)] of the source, named after its
    message, and one for whatever the native side rejects with. *)

Inductive Error : Type :=
| KeyEmptyOrWhitespace                 (* 'key cannot be empty nor contain whitespace' *)
| IdMustBeNonEmpty                     (* 'id must be non-empty string' *)
| KeysAlreadyDisposed (id : jstring)   (* `keys already disposed for id: ${id}` *)
| BackingMapMissing (tag : jstring)    (* `backing map for '${tag}' does not exist/may have been disposed` *)
| KeyNotInMap (key : jstring)          (* `key: '${key}' does not exist in map` *)
| KeyAlreadyInMap (key : jstring)      (* `key: '${key}' already in map` *)
| NativeError (reason : jstring).

(** The error kinds of the specification and the messages they stand for. *)
Inductive ErrorKind : Type :=
| InvalidArgument | Disposed | NotFound | AlreadyExists | ProviderFailure.

Definition kindOf (e : Error) : ErrorKind :=
  match e with
  | KeyEmptyOrWhitespace | IdMustBeNonEmpty => InvalidArgument
  | KeysAlreadyDisposed _ | KeyNotInMap _ => NotFound
  | BackingMapMissing _ => Disposed
  | KeyAlreadyInMap _ => AlreadyExists
  | NativeError _ => ProviderFailure
  end.

(** How a synchronous call ends, and how a promise settles. *)
Inductive completion (A : Type) : Type :=
| Return (a : A)
| Throw (e : Error).
Arguments Return {A} a.
Arguments Throw {A} e.

Inductive outcome (A : Type) : Type :=
| Fulfilled (a : A)
| Rejected (e : Error).
Arguments Fulfilled {A} a.
Arguments Rejected {A} e.

(** ** Memory

    [_staticTagMap] is the module's only variable; [evicted] holds the private
    field [#evicted] of every [VarLocker] object, by object identity. *)

Record memory : Type := Memory {
  _staticTagMap : gmap jstring (gmap jstring jstring);
  evicted : gmap positive bool
}.

Definition assignTagMap (m : gmap jstring (gmap jstring jstring)) (μ : memory) : memory :=
  {| _staticTagMap := m; evicted := evicted μ |}.

(** *** The Immutable.js [Map] methods the source uses *)

Module Map.
Definition has {V} (k : jstring) (m : gmap jstring V) : bool :=
  bool_decide (is_Some (m !! k)).

Definition set {V} (k : jstring) (v : V) (m : gmap jstring V) : gmap jstring V :=
  <[k := v]> m.

(** [delete] is named [remove] here; [m.delete(k)] returns [m] itself when
    [k] is absent. *)
Definition remove {V} (k : jstring) (m : gmap jstring V) : gmap jstring V :=
  delete k m.

Definition clear {V} (m : gmap jstring V) : gmap jstring V := ∅.

(** [m.hasIn([t, k])] *)
Definition hasIn (t k : jstring) (m : gmap jstring (gmap jstring jstring)) : bool :=
  match m !! t with
  | Some c => has k c
  | None => false
  end.

(** [m.getIn([t, k], notSet)] *)
Definition getIn (t k : jstring) (notSet : jstring)
    (m : gmap jstring (gmap jstring jstring)) : jstring :=
  match m !! t with
  | Some c => default notSet (c !! k)
  | None => notSet
  end.

(** [m.setIn([t, k], v)]: a missing [t] is created as an empty [Map]. *)
Definition setIn (t k : jstring) (v : jstring)
    (m : gmap jstring (gmap jstring jstring)) : gmap jstring (gmap jstring jstring) :=
  <[t := <[k := v]> (default ∅ (m !! t))]> m.

(** [m.deleteIn([t, k])]: nothing changes when the path does not exist. *)
Definition deleteIn (t k : jstring)
    (m : gmap jstring (gmap jstring jstring)) : gmap jstring (gmap jstring jstring) :=
  match m !! t with
  | Some c => <[t := delete k c]> m
  | None => m
  end.
End Map.

(** ** The native keychain and promises *)

(** The five methods of [RSAKeychain] the source calls, indexed by the type of
    the value their promise resolves with. *)
Inductive RSAKeychain : Type → Type :=
| getPublicKey (keyTag : jstring) : RSAKeychain (option jstring)
| generate (keyTag : jstring) : RSAKeychain unit
| deletePrivateKey (keyTag : jstring) : RSAKeychain unit
| encrypt (message keyTag : jstring) : RSAKeychain jstring
| decrypt (encoded keyTag : jstring) : RSAKeychain jstring.

#[warnings="-register-all"]
Inductive promise (A : Type) : Type :=
| Settled (o : outcome A)
| Await {R : Type} (c : RSAKeychain R) (k : outcome R → promise A)
| Reaction (job : memory → promise A * memory).
Arguments Settled {A} o.
Arguments Await {A R} c k.
Arguments Reaction {A} job.

(** A synchronous piece of JS: it reads and writes the memory and returns or
    throws. *)
Definition sync (A : Type) : Type := memory → completion A * memory.

Definition resolve {A} (a : A) : promise A := Settled (Fulfilled a).

(** The promise a native method returns: the request has been issued. *)
Definition native {R} (c : RSAKeychain R) : promise R := Await c Settled.

(** What a callback's completion resolves the derived promise with. *)
Definition settle {B} (r : completion (promise B)) : promise B :=
  match r with
  | Return q => q
  | Throw e => Settled (Rejected e)
  end.

(** [p.then(cb)] *)
Fixpoint then_ {A B} (p : promise A) (cb : A → sync (promise B)) : promise B :=
  match p with
  | Settled (Fulfilled a) =>
      Reaction (λ μ, let (r, μ') := cb a μ in (settle r, μ'))
  | Settled (Rejected e) => Settled (Rejected e)
  | Await c k => Await c (λ r, then_ (k r) cb)
  | Reaction job => Reaction (λ μ, let (p', μ') := job μ in (then_ p' cb, μ'))
  end.

(** [p.catch(cb)] *)
Fixpoint catch_ {A} (p : promise A) (cb : Error → sync (promise A)) : promise A :=
  match p with
  | Settled (Fulfilled a) => Settled (Fulfilled a)
  | Settled (Rejected e) =>
      Reaction (λ μ, let (r, μ') := cb e μ in (settle r, μ'))
  | Await c k => Await c (λ r, catch_ (k r) cb)
  | Reaction job => Reaction (λ μ, let (p', μ') := job μ in (catch_ p' cb, μ'))
  end.

Infix ">>=then" := then_ (at level 61, left associativity).
Infix ">>=catch" := catch_ (at level 61, left associativity).

Definition ret {A} (a : A) : sync A := λ μ, (Return a, μ).
Definition throw {A} (e : Error) : sync A := λ μ, (Throw e, μ).

(** ** secureMap.js *)

(** [_isIdInDeviceKeychain]: [pub != null] holds for every string, the empty
    one included. *)
Definition _isIdInDeviceKeychain (id : jstring) : promise bool :=
  native (getPublicKey (_getInternalId id))
  >>=then (λ pub, ret (resolve (bool_decide (pub ≠ None)))).

Definition _disposeKeysForId (id : jstring) : sync (promise unit) := λ μ,
  if negb (_keyCheck id) then (Throw KeyEmptyOrWhitespace, μ)
  else
    (Return
       (_isIdInDeviceKeychain id
        >>=then (λ exists_,
          if negb exists_ then throw (KeysAlreadyDisposed id)
          else ret (native (deletePrivateKey (_getInternalId id))))
        >>=then (λ _ μ,
          (Return (resolve ()),
           if Map.has id (_staticTagMap μ)
           then assignTagMap (Map.remove id (_staticTagMap μ)) μ
           else μ))),
     μ).

(** The private fields [#tag] and [#fullTag] of a [_SecureMap]. *)
Record _SecureMap : Type := { tag : jstring; fullTag : jstring }.

(** [new _SecureMap(id)] *)
Definition new_SecureMap (id : jstring) : _SecureMap :=
  {| tag := id; fullTag := _getInternalId id |}.

(** [_getMapForId]. The second callback returns either the promise of
    [RSAKeychain.generate] or [true]; the third ignores its argument, so both
    are given the type [unit]. *)
Definition _getMapForId (id : jstring) : promise _SecureMap :=
  resolve (_keyCheck id)
  >>=then (λ keyOk : bool,
    if keyOk then ret (_isIdInDeviceKeychain id)
    else throw IdMustBeNonEmpty)
  >>=then (λ hasKeys : bool,
    if negb hasKeys then ret (native (generate (_getInternalId id)))
    else ret (resolve ()))
  >>=then (λ _ μ,
    (Return (resolve (Map.has id (_staticTagMap μ))), μ))
  >>=then (λ (hasMap : bool) μ,
    (Return (resolve true),
     if negb hasMap
     then assignTagMap (Map.set id (∅ : gmap jstring jstring) (_staticTagMap μ)) μ
     else μ))
  >>=then (λ _, ret (resolve (new_SecureMap id))).

(** The methods of [_SecureMap]. *)
Module SecureMap.

Definition fullyQualifiedTag (this : _SecureMap) : jstring := fullTag this.

Definition size (this : _SecureMap) : sync nat := λ μ,
  if negb (Map.has (tag this) (_staticTagMap μ))
  then (Throw (BackingMapMissing (tag this)), μ)
  else (Return (default 0 (base.size <$> _staticTagMap μ !! tag this)), μ).

Definition empty (this : _SecureMap) : sync _SecureMap := λ μ,
  match _staticTagMap μ !! tag this with
  | None => (Throw (BackingMapMissing (tag this)), μ)
  | Some tgt =>
      (Return this,
       assignTagMap (Map.set (tag this) (Map.clear tgt) (_staticTagMap μ)) μ)
  end.

Definition hasItem (this : _SecureMap) (key : jstring) : sync bool := λ μ,
  if negb (Map.has (tag this) (_staticTagMap μ))
  then (Throw (BackingMapMissing (tag this)), μ)
  else (Return (Map.hasIn (tag this) key (_staticTagMap μ)), μ).

Definition retrieveItem (this : _SecureMap) (key : jstring) (remove : bool)
  : sync (promise jstring) := λ μ,
  if negb (_keyCheck key) then (Throw KeyEmptyOrWhitespace, μ)
  else if negb (Map.has (tag this) (_staticTagMap μ))
  then (Throw (BackingMapMissing (tag this)), μ)
  else if negb (Map.hasIn (tag this) key (_staticTagMap μ))
  then (Throw (KeyNotInMap key), μ)
  else
    (Return
       (native (decrypt (Map.getIn (tag this) key [] (_staticTagMap μ))
                        (fullTag this))
        >>=then (λ decVal μ,
          (Return (resolve decVal),
           if remove
           then assignTagMap (Map.deleteIn (tag this) key (_staticTagMap μ)) μ
           else μ))),
     μ).

Definition storeItem (this : _SecureMap) (key value : jstring)
  : sync (promise _SecureMap) := λ μ,
  if negb (_keyCheck key) then (Throw KeyEmptyOrWhitespace, μ)
  else if negb (Map.has (tag this) (_staticTagMap μ))
  then (Throw (BackingMapMissing (tag this)), μ)
  else if Map.hasIn (tag this) key (_staticTagMap μ)
  then (Throw (KeyAlreadyInMap key), μ)
  else
    (Return
       (native (encrypt value (fullTag this))
        >>=then (λ encVal μ,
          (Return (resolve this),
           assignTagMap (Map.setIn (tag this) key encVal (_staticTagMap μ)) μ))),
     μ).

End SecureMap.

(** [SecureMapFactory] *)
Module SecureMapFactory.
Definition disposeKeysForId := _disposeKeysForId.
Definition getMapForId (id : jstring) : promise _SecureMap := _getMapForId id.
Definition isIdInDeviceKeychain := _isIdInDeviceKeychain.
End SecureMapFactory.

(** ** generateKeyString

    [Math.random] is a parameter: [ρ i] is the value that
    [Math.floor(Math.random() * 26)] takes at the [i]-th call of
    [Math.random] in the life of the process, and the state is the number of
    calls made so far. [Math.random()] lies in [0, 1), so these values run
    from 0 to 25 ([in_range]); the functions below do not rely on it. *)

Abbreviation entropy := (nat → N).

Definition in_range (ρ : entropy) : Prop := ∀ i, (ρ i < 26)%N.

(** [String.fromCharCode(c)] *)
Definition fromCharCode (c : N) : N := (c mod 65536)%N.

(** What the [throw]s of the locker's own code carry, and the errors of the
    store underneath that it lets through. *)
Inductive LockerError : Type :=
| LenOutOfBounds        (* 'len must be a number between 4 and 64 inclusive' *)
| ItemMustBeNonEmpty    (* 'item must be a non-empty string value' *)
| KeyLenOutOfBounds     (* 'keyLen must be between [6, 32] inclusive' *)
| StoreError (e : Error).

(** The buffer once the loop has filled its [n] cells, joined: cell [i] holds
    [String.fromCharCode(gen())] of the [i]-th draw made from [drawn] on. *)
Definition letters (ρ : entropy) (drawn n : nat) : jstring :=
  (λ i, fromCharCode (ρ (drawn + i)%nat + 97)%N) <$> seq 0 n.

(** [generateKeyString(len)] for a whole number [len], for which [isNaN(len)]
    is false, after [drawn] calls of [Math.random]; it returns the string, or
    throws, and the number of calls made by then. [NaN] and fractional
    lengths are not modelled. *)
Definition generateKeyString (len : Z) (ρ : entropy) (drawn : nat)
  : (LockerError + jstring) * nat :=
  if ((len <? 4) || (64 <? len))%Z then (inl LenOutOfBounds, drawn)
  else (inr (letters ρ drawn (Z.to_nat len)), (drawn + Z.to_nat len)%nat).

(** ** VarLocker

    A [VarLocker] value is a reference: [self] is the identity of the object,
    under which the memory keeps its [#evicted]; [#store] is never assigned
    after construction. [VarLocker.acquire], [VarLocker.storeItem] and
    [generateKeyString] draw on [Math.random] and [Date.now], which are
    parameters here. *)

Record VarLocker : Type := { self : positive; store : _SecureMap }.

Module Locker.

(** [this.#evicted] *)
Definition get_evicted (this : VarLocker) (μ : memory) : bool :=
  default false (evicted μ !! self this).

(** [this.#evicted = b] *)
Definition set_evicted (this : VarLocker) (b : bool) (μ : memory) : memory :=
  {| _staticTagMap := _staticTagMap μ;
     evicted := <[self this := b]> (evicted μ) |}.

(** [new VarLocker(store)]: a fresh object. *)
Definition new (store : _SecureMap) : sync VarLocker := λ μ,
  let this := {| self := fresh (dom (evicted μ)); store := store |} in
  (Return this, set_evicted this false μ).

Definition id (this : VarLocker) : jstring := tag (store this).

Definition isEvicted (this : VarLocker) : sync (promise bool) := λ μ,
  if negb (get_evicted this μ)
  then
    (Return
       (SecureMapFactory.isIdInDeviceKeychain (id this)
        >>=then (λ b : bool, λ μ,
          if negb b then (Return (resolve true), set_evicted this true μ)
          else (Return (resolve false), μ))
        >>=catch (λ _ μ,
          (Return (resolve true), set_evicted this true μ))),
     μ)
  else (Return (resolve (get_evicted this μ)), μ).

Definition evict (this : VarLocker) : sync (promise VarLocker) := λ μ,
  match SecureMapFactory.disposeKeysForId (id this) μ with
  | (Throw e, μ') => (Throw e, μ')
  | (Return p, μ') =>
      (Return (p >>=then (λ _ μ, (Return (resolve this), set_evicted this true μ))),
       μ')
  end.

Definition keyInUse (this : VarLocker) (key : jstring) : sync bool :=
  SecureMap.hasItem (store this) key.

Definition retrieveItem (this : VarLocker) (key : jstring)
  : sync (promise jstring) :=
  SecureMap.retrieveItem (store this) key true.

(** [while (this.keyInUse(key)) { key = generateKeyString(keyLen); }]: the
    loop has no bound of its own; [fuel] bounds the number of times its body
    runs, and [None] is a loop still running when the fuel is spent. *)
Fixpoint retryWhileInUse (fuel : nat) (this : VarLocker) (keyLen : Z)
    (key : jstring) (ρ : entropy) (drawn : nat) (μ : memory)
  : option ((LockerError + jstring) * nat * memory) :=
  match keyInUse this key μ with
  | (Throw e, μ') => Some (inl (StoreError e), drawn, μ')
  | (Return false, μ') => Some (inr key, drawn, μ')
  | (Return true, μ') =>
      match fuel with
      | O => None
      | S fuel' =>
          match generateKeyString keyLen ρ drawn with
          | (inl e, drawn') => Some (inl e, drawn', μ')
          | (inr key', drawn') =>
              retryWhileInUse fuel' this keyLen key' ρ drawn' μ'
          end
      end
  end.

(** [storeItem(item, keyLen)] for a whole number [keyLen]; [NaN] and
    fractional lengths are not modelled. The store resolves with the handle
    itself, an object, so the callback's test [if (sm)] holds and its [throw]
    is never reached. *)
Definition storeItem (this : VarLocker) (item : jstring) (keyLen : Z)
    (fuel : nat) (ρ : entropy) (drawn : nat) (μ : memory)
  : option ((LockerError + promise jstring) * nat * memory) :=
  if bool_decide (item = []) then Some (inl ItemMustBeNonEmpty, drawn, μ)
  else if ((keyLen <? 6) || (32 <? keyLen))%Z
  then Some (inl KeyLenOutOfBounds, drawn, μ)
  else
    match generateKeyString keyLen ρ drawn with
    | (inl e, drawn') => Some (inl e, drawn', μ)
    | (inr key0, drawn0) =>
        match retryWhileInUse fuel this keyLen key0 ρ drawn0 μ with
        | None => None
        | Some (inl e, drawn', μ') => Some (inl e, drawn', μ')
        | Some (inr key, drawn', μ') =>
            match SecureMap.storeItem (store this) key item μ' with
            | (Throw e, μ'') => Some (inl (StoreError e), drawn', μ'')
            | (Return p, μ'') =>
                Some (inr (p >>=then (λ _, ret (resolve key))), drawn', μ'')
            end
        end
    end.

(** The default of [keyLen]. *)
Definition defaultKeyLen : Z := 6.

End Locker.

(** ** Running a promise against a keychain *)

(** A keychain is a state machine answering the five requests. *)
Record Provider : Type := {
  keychain : Type;
  perform : ∀ R, RSAKeychain R → keychain → outcome R * keychain
}.
Arguments perform _ {R} _ _.

Inductive request : Type :=
| Request {R : Type} (c : RSAKeychain R).

(** What came of a run: how the promise settled, the keychain and the memory
    it left, and every request made, each with the memory as it was when the
    keychain served it. *)
Record ran (P : Provider) (A : Type) : Type := Ran {
  settled : outcome A;
  chain_after : keychain P;
  mem_after : memory;
  requests : list (request * memory)
}.
Arguments Ran {P A}.
Arguments settled {P A}.
Arguments chain_after {P A}.
Arguments mem_after {P A}.
Arguments requests {P A}.

Definition logged {P A} (c : request) (μ : memory) (r : ran P A) : ran P A :=
  Ran (settled r) (chain_after r) (mem_after r) ((c, μ) :: requests r).

(** Nothing else runs in between: the keychain answers at once and every
    queued callback runs next. *)
Fixpoint run (P : Provider) {A} (p : promise A) (κ : keychain P) (μ : memory)
  : ran P A :=
  match p with
  | Settled o => Ran o κ μ []
  | Await c k =>
      let (r, κ') := perform P c κ in
      logged (Request c) μ (run P (k r) κ' μ)
  | Reaction job =>
      let (p', μ') := job μ in run P p' κ μ'
  end.

(** Calling a function that returns a promise, and waiting for it. A
    synchronous throw and a rejection are both the call failing. *)
Definition invoke (P : Provider) {A} (f : sync (promise A))
    (κ : keychain P) (μ : memory) : ran P A :=
  match f μ with
  | (Throw e, μ') => Ran (Rejected e) κ μ' []
  | (Return p, μ') => run P p κ μ'
  end.

(** ** A reference keychain *)

(** Modelled from the spec: the native keychain (react-native-rsa-native) is
    not part of the repository. This one follows the contract of section 6:
    it holds the key tags that have a keypair; [getPublicKey] reports a key
    exactly for those; [generate] adds one; [deletePrivateKey], [encrypt] and
    [decrypt] fail without a keypair. The cipher is a stand-in (it reverses
    the message). *)
Definition noKeypair : Error := NativeError (str "no keypair for tag").

Definition publicKeyOf (h : jstring) : jstring := str "PUBLIC KEY " ++ h.

Definition deviceKeychain : Provider := {|
  keychain := list jstring;
  perform R c κ :=
    match c in RSAKeychain R return outcome R * list jstring with
    | getPublicKey h =>
        (Fulfilled (if decide (h ∈ κ) then Some (publicKeyOf h) else None), κ)
    | generate h => (Fulfilled (), h :: κ)
    | deletePrivateKey h =>
        if decide (h ∈ κ) then (Fulfilled (), filter (.≠ h) κ)
        else (Rejected noKeypair, κ)
    | encrypt m h =>
        if decide (h ∈ κ) then (Fulfilled (reverse m), κ) else (Rejected noKeypair, κ)
    | decrypt m h =>
        if decide (h ∈ κ) then (Fulfilled (reverse m), κ) else (Rejected noKeypair, κ)
    end
|}.

(** A keychain whose every request fails, as when the native side is
    unavailable. *)
Definition brokenKeychain : Provider := {|
  keychain := unit;
  perform R c κ := (Rejected (NativeError (str "keychain unavailable")), κ)
|}.

Definition freshMemory : memory := {| _staticTagMap := ∅; evicted := ∅ |}.

(** ** What the callbacks of a promise may do *)

(** [every_job Q p]: whatever the keychain answers and whatever the memory is
    when a callback of [p] runs, the callback takes a memory [μ] to a memory
    related to it by [Q]. *)
Fixpoint every_job {A} (Q : memory → memory → Prop) (p : promise A) : Prop :=
  match p with
  | Settled _ => True
  | Await c k => ∀ r, every_job Q (k r)
  | Reaction job => ∀ μ, Q μ (job μ).2 ∧ every_job Q (job μ).1
  end.

(** ** Interleaved execution

    The process as a whole: the keychain, the memory, and the promises in
    flight. A client may call any function of the module at any time; a
    promise in flight advances when the keychain serves its request or when
    its queued callback runs. *)

Inductive task : Type :=
| Task {A : Type} (p : promise A).

Record system (P : Provider) : Type := System {
  chain : keychain P;
  mem : memory;
  pending : list task
}.
Arguments System {P}.
Arguments chain {P}.
Arguments mem {P}.
Arguments pending {P}.

(** The calls open to a client. [VarLocker.acquire] is [getMapForId] followed
    by [new VarLocker]; [VarLocker.storeItem] is [keyInUse] followed by
    [SecureMap.storeItem] at a generated key. *)
Inductive client_call : Type :=
| call_disposeKeysForId (id : jstring)
| call_getMapForId (id : jstring)
| call_isIdInDeviceKeychain (id : jstring)
| call_size (this : _SecureMap)
| call_empty (this : _SecureMap)
| call_hasItem (this : _SecureMap) (key : jstring)
| call_retrieveItem (this : _SecureMap) (key : jstring) (remove : bool)
| call_storeItem (this : _SecureMap) (key value : jstring)
| call_new_VarLocker (store : _SecureMap)
| call_isEvicted (this : VarLocker)
| call_evict (this : VarLocker)
| call_keyInUse (this : VarLocker) (key : jstring)
| call_Locker_retrieveItem (this : VarLocker) (key : jstring).

Definition spawned {A} (r : completion (promise A) * memory) : option task * memory :=
  (match r.1 with Return p => Some (Task p) | Throw _ => None end, r.2).

Definition returned {A} (r : completion A * memory) : option task * memory :=
  (None, r.2).

Definition begin (c : client_call) (μ : memory) : option task * memory :=
  match c with
  | call_disposeKeysForId id => spawned (SecureMapFactory.disposeKeysForId id μ)
  | call_getMapForId id => (Some (Task (SecureMapFactory.getMapForId id)), μ)
  | call_isIdInDeviceKeychain id =>
      (Some (Task (SecureMapFactory.isIdInDeviceKeychain id)), μ)
  | call_size this => returned (SecureMap.size this μ)
  | call_empty this => returned (SecureMap.empty this μ)
  | call_hasItem this key => returned (SecureMap.hasItem this key μ)
  | call_retrieveItem this key remove =>
      spawned (SecureMap.retrieveItem this key remove μ)
  | call_storeItem this key value => spawned (SecureMap.storeItem this key value μ)
  | call_new_VarLocker store => returned (Locker.new store μ)
  | call_isEvicted this => spawned (Locker.isEvicted this μ)
  | call_evict this => spawned (Locker.evict this μ)
  | call_keyInUse this key => returned (Locker.keyInUse this key μ)
  | call_Locker_retrieveItem this key => spawned (Locker.retrieveItem this key μ)
  end.

Inductive step {P : Provider} : system P → system P → Prop :=
| step_call (c : client_call) (s : system P) :
    step s (System (chain s) (begin c (mem s)).2
                   (pending s ++ option_list (begin c (mem s)).1))
| step_served (i : nat) (s : system P) {A R} (c : RSAKeychain R)
      (k : outcome R → promise A) :
    pending s !! i = Some (Task (Await c k)) →
    step s (System (perform P c (chain s)).2 (mem s)
                   (<[i := Task (k (perform P c (chain s)).1)]> (pending s)))
| step_job (i : nat) (s : system P) {A} (job : memory → promise A * memory) :
    pending s !! i = Some (Task (Reaction job)) →
    step s (System (chain s) (job (mem s)).2
                   (<[i := Task (job (mem s)).1]> (pending s))).

(** The states a process can be in: it starts with an empty [_staticTagMap],
    no [VarLocker] and nothing in flight, whatever the keychain holds. *)
Definition reachable {P : Provider} (s : system P) : Prop :=
  ∃ κ0, rtc step (System κ0 freshMemory []) s.

(** ** Keychain contract *)

(** Whether [getPublicKey] reports a key for [h]: the module's own test
    ([_isIdInDeviceKeychain]) of a store being live. *)
Definition present (P : Provider) (κ : keychain P) (h : jstring) : bool :=
  match (perform P (getPublicKey h) κ).1 with
  | Fulfilled (Some _) => true
  | _ => false
  end.

(** The part of the contract of section 6 that is about keypairs: the query
    answers and changes nothing; a successful [generate] leaves a keypair and
    a successful [deletePrivateKey] leaves none. *)
Record Lawful (P : Provider) : Prop := {
  query_answers : ∀ h κ, ∃ pub, (perform P (getPublicKey h) κ).1 = Fulfilled pub;
  query_keeps : ∀ h κ h', present P (perform P (getPublicKey h) κ).2 h' = present P κ h';
  generate_adds : ∀ h κ u κ',
    perform P (generate h) κ = (Fulfilled u, κ') → present P κ' h = true;
  delete_removes : ∀ h κ u κ',
    perform P (deletePrivateKey h) κ = (Fulfilled u, κ') → present P κ' h = false
}.

(** [decrypt] undoes [encrypt] for message [v] under key tag [h], from
    keychain state [κ] on. *)
Definition decrypt_inverts_encrypt (P : Provider) (κ : keychain P)
    (h v : jstring) : Prop :=
  ∃ enc κ1 κ2,
    perform P (encrypt v h) κ = (Fulfilled enc, κ1) ∧
    perform P (decrypt enc h) κ1 = (Fulfilled v, κ2).

(** Every item key in every collection passed [_keyCheck]. *)
Definition keys_checked (μ : memory) : Prop :=
  ∀ t c k v, _staticTagMap μ !! t = Some c → c !! k = Some v → _keyCheck k = true.

(** Nothing but the collection of [t] differs between two memories. *)
Definition same_elsewhere (t : jstring) (μ μ' : memory) : Prop :=
  (∀ t', t' ≠ t → _staticTagMap μ' !! t' = _staticTagMap μ !! t') ∧
  evicted μ' = evicted μ.

(** The memory once the last callbacks of [_getMapForId] have run: [id] has a
    collection, a new and empty one if it had none. *)
Definition ensured (id : jstring) (μ : memory) : memory :=
  if Map.has id (_staticTagMap μ) then μ
  else assignTagMap (<[id := ∅]> (_staticTagMap μ)) μ.

Definition keeps_keys_checked (μ μ' : memory) : Prop :=
  keys_checked μ → keys_checked μ'.

Definition task_safe (t : task) : Prop :=
  match t with Task p => every_job keeps_keys_checked p end.

Definition system_safe {P} (s : system P) : Prop :=
  keys_checked (mem s) ∧ Forall task_safe (pending s).

(** A run with the requests [log] made before it. *)
Definition after {P A} (log : list (request * memory)) (r : ran P A) : ran P A :=
  Ran (settled r) (chain_after r) (mem_after r) (log ++ requests r).

(** The call fails with an error of the given kind and the keychain was never
    asked. *)
Definition fails_unasked {P A} (r : ran P A) (kind : ErrorKind) : Prop :=
  ∃ e, settled r = Rejected e ∧ kindOf e = kind ∧ requests r = [].

(** [storeItem(key, value)] resolves and [retrieveItem(key, false)], called
    next, resolves with [value]. *)
Definition round_trip (P : Provider) (this : _SecureMap) (key value : jstring)
    (κ : keychain P) (μ : memory) : Prop :=
  let r1 := invoke P (SecureMap.storeItem this key value) κ μ in
  let r2 := invoke P (SecureMap.retrieveItem this key false)
                     (chain_after r1) (mem_after r1) in
  settled r1 = Fulfilled this ∧ settled r2 = Fulfilled value.

(** A tag is a key of [_staticTagMap] exactly when the keychain holds a
    keypair under its internal id. *)
Definition paired {P} (s : system P) : Prop :=
  ∀ id, Map.has id (_staticTagMap (mem s)) = present P (chain s) (_getInternalId id).

(** *** Scripted executions *)

Inductive action : Type :=
| Do (c : client_call)
| Advance (i : nat).

Definition advance {P} (i : nat) (s : system P) : system P :=
  match pending s !! i with
  | Some (Task (Await c k)) =>
      System (perform P c (chain s)).2 (mem s)
             (<[i := Task (k (perform P c (chain s)).1)]> (pending s))
  | Some (Task (Reaction job)) =>
      System (chain s) (job (mem s)).2 (<[i := Task (job (mem s)).1]> (pending s))
  | _ => s
  end.

Definition act {P} (a : action) (s : system P) : system P :=
  match a with
  | Do c => System (chain s) (begin c (mem s)).2
                   (pending s ++ option_list (begin c (mem s)).1)
  | Advance i => advance i s
  end.

Definition exec {P} (script : list action) (s : system P) : system P :=
  foldl (λ s a, act a s) s script.

(** [LOCKER_TAG] *)
Definition LOCKER_TAG : jstring := str "locker".

(** [Date.now().toString()]: the decimal digits of the clock's value, a
    whole number of milliseconds that stays far below 10^21, where
    [toString] would switch to exponent notation. *)
Definition timestamp (now : N) : jstring := str (pretty now).

(** The static [VarLocker.acquire(common)]; [now] is the value of
    [Date.now()] at the call. *)
Module VarLockerStatic.

Definition acquire (common : bool) (now : N) (ρ : entropy) (drawn : nat)
  : (LockerError + promise VarLocker) * nat :=
  let then_new (id : jstring) : promise VarLocker :=
    SecureMapFactory.getMapForId id
    >>=then (λ sm μ,
      let (r, μ') := Locker.new sm μ in
      (match r with
       | Return this => Return (resolve this)
       | Throw e => Throw e
       end, μ')) in
  if common then (inr (then_new LOCKER_TAG), drawn)
  else
    match generateKeyString 4 ρ drawn with
    | (inl e, drawn') => (inl e, drawn')
    | (inr prefix, drawn') => (inr (then_new (prefix ++ timestamp now)), drawn')
    end.

End VarLockerStatic.

(** Lowercase ASCII letters only. *)
Definition lowercase (s : jstring) : Prop := Forall (λ c, (97 ≤ c ≤ 122)%N) s.

(** The key generated at the [n]-th attempt of [VarLocker.storeItem], the
    first being attempt 0, when [drawn] calls of [Math.random] came before. *)
Definition candidate (keyLen : Z) (ρ : entropy) (drawn n : nat) : jstring :=
  letters ρ (drawn + n * Z.to_nat keyLen) (Z.to_nat keyLen).

(** A process on a device whose keychain holds nothing. *)
Definition boot : system deviceKeychain :=
  System (P := deviceKeychain) ([] : list jstring) freshMemory [].

(** [getMapForId('locker')] in flight: the key check has run, the keychain has
    reported no key and has then served [generate]; the callbacks that look at
    [_staticTagMap] are still queued. *)
Definition generating : system deviceKeychain :=
  exec [Do (call_getMapForId LOCKER_TAG);
        Advance 0; Advance 0; Advance 0; Advance 0; Advance 0] boot.

(** The same call, completed. *)
Definition acquired : system deviceKeychain :=
  exec [Advance 0; Advance 0; Advance 0] generating.

(** [disposeKeysForId('locker')] in flight after that: the keychain has served
    [deletePrivateKey]; the callback that drops the collection is still
    queued. *)
Definition disposing : system deviceKeychain :=
  exec [Do (call_disposeKeysForId LOCKER_TAG);
        Advance 1; Advance 1; Advance 1; Advance 1] acquired.

(** After [storeItem('k', 'secret')] on the acquired store has completed. *)
Definition stored : system deviceKeychain :=
  exec [Do (call_storeItem (new_SecureMap LOCKER_TAG) (str "k") (str "secret"));
        Advance 1; Advance 1] acquired.

(** A [VarLocker] over the common store. *)
Definition commonLocker : VarLocker :=
  {| self := 1%positive; store := new_SecureMap LOCKER_TAG |}.

(** ** Calls made one at a time *)

(** Every tag that is a key of [_staticTagMap] has a keypair under its
    internal id in the keychain. *)
Definition backed {P} (s : system P) : Prop :=
  ∀ id, Map.has id (_staticTagMap (mem s)) = true →
        present P (chain s) (_getInternalId id) = true.

(** The rest of the contract about keypairs: a request changes nothing about
    which key tags have a keypair, except that a [generate] or a
    [deletePrivateKey] that succeeds changes it for the key tag it names. *)
Record Framed (P : Provider) : Prop := {
  generate_frame : ∀ h κ h', h' ≠ h →
    present P (perform P (generate h) κ).2 h' = present P κ h';
  generate_failed : ∀ h κ e κ' h',
    perform P (generate h) κ = (Rejected e, κ') → present P κ' h' = present P κ h';
  delete_frame : ∀ h κ h', h' ≠ h →
    present P (perform P (deletePrivateKey h) κ).2 h' = present P κ h';
  delete_failed : ∀ h κ e κ' h',
    perform P (deletePrivateKey h) κ = (Rejected e, κ') →
    present P κ' h' = present P κ h';
  encrypt_frame : ∀ m h κ h',
    present P (perform P (encrypt m h) κ).2 h' = present P κ h';
  decrypt_frame : ∀ m h κ h',
    present P (perform P (decrypt m h) κ).2 h' = present P κ h'
}.

(** From [s] to [s'], the collection and the keypair of [id] are both as they
    were, or both there, or both gone. *)
Definition together {P} (s s' : system P) (id : jstring) : Prop :=
  let has s := Map.has id (_staticTagMap (mem s)) in
  let keypair s := present P (chain s) (_getInternalId id) in
  (has s' = has s ∧ keypair s' = keypair s) ∨
  (has s' = true ∧ keypair s' = true) ∨
  (has s' = false ∧ keypair s' = false).

(** The same, from [s] to where a run [r] that started in [s] ended. *)
Definition run_together {P A} (s : system P) (r : ran P A) : Prop :=
  ∀ l id, together s (System (chain_after r) (mem_after r) l) id.

(** The promise of a task has settled. *)
Definition settled_task (t : task) : Prop :=
  match t with Task (Settled _) => True | Task _ => False end.

(** Nothing is in flight. *)
Definition idle {P} (s : system P) : Prop := Forall settled_task (pending s).

(** A call made and left to run until it has settled, nothing else running
    in between: the synchronous part, then the promise it returned, if any,
    to its end. *)
Definition complete {P} (c : client_call) (s : system P) : system P :=
  match (begin c (mem s)).1 with
  | Some (Task p) =>
      let r := run P p (chain s) (begin c (mem s)).2 in
      System (chain_after r) (mem_after r)
             (pending s ++ [Task (Settled (settled r))])
  | None => System (chain s) (begin c (mem s)).2 (pending s)
  end.

(** The states a process is in between calls when no call is made while
    another is in flight. *)
Definition between_calls {P} (s : system P) : Prop :=
  ∃ κ0 calls, s = foldl (λ s c, complete c s) (System κ0 freshMemory []) calls.

(** [getMapForId('locker')] and then [storeItem('k', 'secret')], each left to
    settle before the next call, on a device whose keychain holds nothing. *)
Definition servedInTurn : system deviceKeychain :=
  foldl (λ s c, complete c s) boot
    [call_getMapForId LOCKER_TAG;
     call_storeItem (new_SecureMap LOCKER_TAG) (str "k") (str "secret")].

(** ** Single entries, acquired tags, checked tags *)

(** Under tag [t], [μ'] holds at every key but [k] what [μ] holds there. *)
Definition same_other_keys (t k : jstring) (μ μ' : memory) : Prop :=
  ∀ k', k' ≠ k →
    _staticTagMap μ' !! t ≫= (.!! k') = _staticTagMap μ !! t ≫= (.!! k').

(** The tag that [VarLocker.acquire(common)] hands to [getMapForId]:
    [common ? LOCKER_TAG : (generateKeyString(4) + Date.now().toString())]. *)
Definition acquiredTag (common : bool) (now : N) (ρ : entropy) (drawn : nat) : jstring :=
  if common then LOCKER_TAG else letters ρ drawn 4 ++ timestamp now.

(** The code units '0' to '9'. *)
Definition digit (c : N) : Prop := (48 ≤ c ≤ 57)%N.

(** Every tag that has a collection passes the key check. *)
Definition tags_checked (μ : memory) : Prop :=
  ∀ t c, _staticTagMap μ !! t = Some c → _keyCheck t = true.

Definition keeps_tags_checked (μ μ' : memory) : Prop :=
  tags_checked μ → tags_checked μ'.

Definition task_tagsafe (t : task) : Prop :=
  match t with Task p => every_job keeps_tags_checked p end.

Definition system_tagsafe {P} (s : system P) : Prop :=
  tags_checked (mem s) ∧ Forall task_tagsafe (pending s).

(** *** Concrete draws, stores and lockers *)

(** [Math.random] returning 0 for ever: every generated letter is 'a'. *)
Definition zeros : entropy := λ _, 0%N.

(** Six draws of 0, then 1 for ever: 'aaaaaa', then 'bbbbbb', ... *)
Definition sixThenOnes : entropy := λ i, if (i <? 6)%nat then 0%N else 1%N.

(** The common store holding one entry, under the key 'aaaaaa'. *)
Definition crowded : memory :=
  assignTagMap {[LOCKER_TAG := {[str "aaaaaa" := str "x"]}]} freshMemory.

(** A second [VarLocker] object over the common store. *)
Definition twinLocker : VarLocker :=
  {| self := 2%positive; store := new_SecureMap LOCKER_TAG |}.

(** * Proofs *)

Lemma promise_induction {A} (Φ : promise A → Prop) :
  (∀ o, Φ (Settled o)) →
  (∀ R (c : RSAKeychain R) k, (∀ r, Φ (k r)) → Φ (Await c k)) →
  (∀ job, (∀ μ, Φ (job μ).1) → Φ (Reaction job)) →
  ∀ p, Φ p.
Proof.
  intros HS HA HR. fix IH 1. intros [o | R c k | job].
  - apply HS.
  - apply HA. intros r. apply IH.
  - apply HR. intros μ. destruct (job μ) as [p' μ']. apply IH.
Qed.

(** ** Callbacks under [then] and [catch] *)

Lemma every_job_then {A B} Q (p : promise A) (cb : A → sync (promise B)) :
  every_job Q p →
  (∀ a μ, Q μ (cb a μ).2 ∧ every_job Q (settle (cb a μ).1)) →
  every_job Q (p >>=then cb).
Proof.
  intros Hp Hcb.
  induction p as [[a|e] | R c k IH | job IH] using promise_induction; simpl in *.
  - intros μ. specialize (Hcb a μ). by destruct (cb a μ).
  - done.
  - intros r. by apply IH.
  - intros μ. specialize (Hp μ). specialize (IH μ). destruct (job μ) as [p' μ'].
    simpl in *. split; [apply Hp | apply IH, Hp].
Qed.

Lemma every_job_catch {A} Q (p : promise A) (cb : Error → sync (promise A)) :
  every_job Q p →
  (∀ e μ, Q μ (cb e μ).2 ∧ every_job Q (settle (cb e μ).1)) →
  every_job Q (p >>=catch cb).
Proof.
  intros Hp Hcb.
  induction p as [[a|e] | R c k IH | job IH] using promise_induction; simpl in *.
  - done.
  - intros μ. specialize (Hcb e μ). by destruct (cb e μ).
  - intros r. by apply IH.
  - intros μ. specialize (Hp μ). specialize (IH μ). destruct (job μ) as [p' μ'].
    simpl in *. split; [apply Hp | apply IH, Hp].
Qed.

(** Case analysis on the keychain's answers and on the branches of the
    callbacks, down to what each callback does to the memory. *)
Ltac jobs :=
  repeat first
    [ progress (simpl in *)
    | progress intros
    | match goal with |- _ ∧ _ => split end
    | match goal with
      | |- context [if ?b then _ else _] => destruct b eqn:?
      | |- context [match ?o with Fulfilled _ => _ | Rejected _ => _ end] =>
          destruct o
      end
    | exact I ].

(** ** Runs *)

Section Runs.
Context (P : Provider).

Lemma every_job_run {A} (Q : memory → memory → Prop) (p : promise A) κ μ :
  (∀ μ, Q μ μ) → (∀ μ1 μ2 μ3, Q μ1 μ2 → Q μ2 μ3 → Q μ1 μ3) →
  every_job Q p → Q μ (mem_after (run P p κ μ)).
Proof.
  intros Hrefl Htrans. revert κ μ.
  induction p as [o | R c k IH | job IH] using promise_induction; intros κ μ Hp;
    simpl in *.
  - apply Hrefl.
  - destruct (perform P c κ) as [r κ']. simpl. by apply IH.
  - specialize (Hp μ). specialize (IH μ). destruct (job μ) as [p' μ']. simpl in *.
    eapply Htrans; [apply Hp | apply IH, Hp].
Qed.

Lemma run_then {A B} (p : promise A) (cb : A → sync (promise B)) κ μ :
  run P (p >>=then cb) κ μ =
    let r := run P p κ μ in
    match settled r with
    | Fulfilled a =>
        after (requests r)
              (run P (settle (cb a (mem_after r)).1) (chain_after r)
                     (cb a (mem_after r)).2)
    | Rejected e => Ran (Rejected e) (chain_after r) (mem_after r) (requests r)
    end.
Proof.
  revert κ μ.
  induction p as [[a|e] | R c k IH | job IH] using promise_induction;
    intros κ μ; simpl.
  - destruct (cb a μ) as [c μ']. simpl. by destruct (run P (settle c) κ μ').
  - done.
  - destruct (perform P c κ) as [r κ']. rewrite IH. simpl.
    by destruct (settled (run P (k r) κ' μ)).
  - specialize (IH μ). destruct (job μ) as [p' μ']. apply IH.
Qed.

Lemma run_isIdInDeviceKeychain id κ μ :
  run P (_isIdInDeviceKeychain id) κ μ =
    let (o, κ1) := perform P (getPublicKey (_getInternalId id)) κ in
    Ran (match o with
         | Fulfilled pub => Fulfilled (bool_decide (pub ≠ None))
         | Rejected e => Rejected e
         end) κ1 μ [(Request (getPublicKey (_getInternalId id)), μ)].
Proof.
  unfold _isIdInDeviceKeychain. simpl.
  by destruct (perform P (getPublicKey (_getInternalId id)) κ) as [[pub|e] κ1].
Qed.

Lemma run_getMapForId id κ μ :
  _keyCheck id = true →
  run P (_getMapForId id) κ μ =
    let h := _getInternalId id in
    let (o, κ1) := perform P (getPublicKey h) κ in
    match o with
    | Rejected e => Ran (Rejected e) κ1 μ [(Request (getPublicKey h), μ)]
    | Fulfilled (Some _) =>
        Ran (Fulfilled (new_SecureMap id)) κ1 (ensured id μ)
            [(Request (getPublicKey h), μ)]
    | Fulfilled None =>
        let (g, κ2) := perform P (generate h) κ1 in
        match g with
        | Fulfilled _ =>
            Ran (Fulfilled (new_SecureMap id)) κ2 (ensured id μ)
                [(Request (getPublicKey h), μ); (Request (generate h), μ)]
        | Rejected e =>
            Ran (Rejected e) κ2 μ
                [(Request (getPublicKey h), μ); (Request (generate h), μ)]
        end
    end.
Proof.
  intros Hid. unfold _getMapForId, ensured. rewrite Hid. simpl.
  destruct (perform P (getPublicKey (_getInternalId id)) κ) as [[[pub|]|e] κ1]; simpl.
  - by destruct (Map.has id (_staticTagMap μ)).
  - destruct (perform P (generate (_getInternalId id)) κ1) as [[u|e] κ2]; simpl; [|done].
    by destruct (Map.has id (_staticTagMap μ)).
  - done.
Qed.

Lemma run_getMapForId_unchecked id κ μ :
  _keyCheck id = false →
  run P (_getMapForId id) κ μ = Ran (Rejected IdMustBeNonEmpty) κ μ [].
Proof. intros Hid. unfold _getMapForId. by rewrite Hid. Qed.

Lemma invoke_disposeKeysForId id κ μ :
  _keyCheck id = true →
  invoke P (_disposeKeysForId id) κ μ =
    let h := _getInternalId id in
    let (o, κ1) := perform P (getPublicKey h) κ in
    match o with
    | Rejected e => Ran (Rejected e) κ1 μ [(Request (getPublicKey h), μ)]
    | Fulfilled None =>
        Ran (Rejected (KeysAlreadyDisposed id)) κ1 μ [(Request (getPublicKey h), μ)]
    | Fulfilled (Some _) =>
        let (d, κ2) := perform P (deletePrivateKey h) κ1 in
        match d with
        | Fulfilled _ =>
            Ran (Fulfilled ()) κ2 (assignTagMap (delete id (_staticTagMap μ)) μ)
                [(Request (getPublicKey h), μ); (Request (deletePrivateKey h), μ)]
        | Rejected e =>
            Ran (Rejected e) κ2 μ
                [(Request (getPublicKey h), μ); (Request (deletePrivateKey h), μ)]
        end
    end.
Proof.
  intros Hid. unfold invoke, _disposeKeysForId. rewrite Hid. simpl.
  destruct (perform P (getPublicKey (_getInternalId id)) κ) as [[[pub|]|e] κ1]; simpl;
    [|done|done].
  destruct (perform P (deletePrivateKey (_getInternalId id)) κ1) as [[[]|e] κ2]; simpl;
    [|done].
  f_equal. unfold Map.has, Map.remove. case_bool_decide as Hin; [done|].
  destruct μ as [m ev]. unfold assignTagMap. simpl in *. f_equal.
  rewrite delete_id; [done|]. by apply eq_None_not_Some.
Qed.

Lemma invoke_disposeKeysForId_unchecked id κ μ :
  _keyCheck id = false →
  invoke P (_disposeKeysForId id) κ μ = Ran (Rejected KeyEmptyOrWhitespace) κ μ [].
Proof. intros Hid. unfold invoke, _disposeKeysForId. by rewrite Hid. Qed.

Lemma invoke_evict this κ μ :
  invoke P (Locker.evict this) κ μ =
    let r := invoke P (_disposeKeysForId (Locker.id this)) κ μ in
    match settled r with
    | Fulfilled _ =>
        Ran (Fulfilled this) (chain_after r)
            (Locker.set_evicted this true (mem_after r)) (requests r)
    | Rejected e => Ran (Rejected e) (chain_after r) (mem_after r) (requests r)
    end.
Proof.
  unfold invoke, Locker.evict, SecureMapFactory.disposeKeysForId.
  destruct (_disposeKeysForId (Locker.id this) μ) as [[p|e] μ']; [|done].
  rewrite run_then. cbv zeta. destruct (settled (run P p κ μ')); [|done].
  simpl. unfold after. simpl. by rewrite app_nil_r.
Qed.

End Runs.

Lemma has_ensured id μ : Map.has id (_staticTagMap (ensured id μ)) = true.
Proof.
  unfold ensured. destruct (Map.has id (_staticTagMap μ)) eqn:H; [done|].
  simpl. unfold Map.has. rewrite lookup_insert_eq. by apply bool_decide_true.
Qed.

Lemma ensured_new id μ :
  _staticTagMap μ !! id = None →
  ensured id μ = assignTagMap (<[id := ∅]> (_staticTagMap μ)) μ.
Proof.
  intros H. unfold ensured, Map.has.
  rewrite bool_decide_false; [done | rewrite H; by intros [? ?]].
Qed.

Lemma ensured_old id μ : is_Some (_staticTagMap μ !! id) → ensured id μ = μ.
Proof. intros H. unfold ensured, Map.has. by rewrite bool_decide_true. Qed.

(** ** Item keys are checked before they are stored *)

Lemma keys_checked_set id μ :
  keys_checked μ → keys_checked (assignTagMap (Map.set id ∅ (_staticTagMap μ)) μ).
Proof.
  intros H t c k v. simpl. unfold Map.set. rewrite lookup_insert.
  case_decide; [intros [= <-]; by rewrite lookup_empty | apply H].
Qed.

Lemma keys_checked_remove id μ :
  keys_checked μ → keys_checked (assignTagMap (Map.remove id (_staticTagMap μ)) μ).
Proof.
  intros H t c k v. simpl. unfold Map.remove. rewrite lookup_delete.
  case_decide; [done | apply H].
Qed.

Lemma keys_checked_setIn t k v μ :
  _keyCheck k = true →
  keys_checked μ → keys_checked (assignTagMap (Map.setIn t k v (_staticTagMap μ)) μ).
Proof.
  intros Hk H t' c k' v'. simpl. unfold Map.setIn. rewrite lookup_insert.
  case_decide as Ht; [|apply H]. intros [= <-]. rewrite lookup_insert.
  case_decide as Hk'; [by subst|]. subst t'.
  destruct (_staticTagMap μ !! t) as [c|] eqn:Hc; simpl; [by eapply H|].
  by rewrite lookup_empty.
Qed.

Lemma keys_checked_deleteIn t k μ :
  keys_checked μ → keys_checked (assignTagMap (Map.deleteIn t k (_staticTagMap μ)) μ).
Proof.
  intros H t' c k' v'. simpl. unfold Map.deleteIn.
  destruct (_staticTagMap μ !! t) as [c0|] eqn:Hc; [|apply H].
  rewrite lookup_insert. case_decide as Ht; [|apply H]. subst t'. intros [= <-].
  rewrite lookup_delete. case_decide; [done|]. by eapply H.
Qed.

Lemma keys_checked_set_evicted this b μ :
  keys_checked μ → keys_checked (Locker.set_evicted this b μ).
Proof. done. Qed.

Create HintDb registry discriminated.
#[local] Hint Resolve keys_checked_set keys_checked_remove keys_checked_setIn
  keys_checked_deleteIn keys_checked_set_evicted : registry.

Lemma safe_isIdInDeviceKeychain id :
  every_job keeps_keys_checked (_isIdInDeviceKeychain id).
Proof. unfold _isIdInDeviceKeychain, keeps_keys_checked. jobs; done. Qed.

Lemma safe_getMapForId id : every_job keeps_keys_checked (_getMapForId id).
Proof.
  unfold _getMapForId, _isIdInDeviceKeychain, keeps_keys_checked.
  jobs; auto with registry.
Qed.

Lemma safe_disposeKeysForId id μ p :
  (_disposeKeysForId id μ).1 = Return p → every_job keeps_keys_checked p.
Proof.
  unfold _disposeKeysForId, _isIdInDeviceKeychain, keeps_keys_checked.
  destruct (_keyCheck id); simpl; [|done]. intros [= <-]. jobs; auto with registry.
Qed.

Lemma safe_retrieveItem this key remove μ p :
  (SecureMap.retrieveItem this key remove μ).1 = Return p →
  every_job keeps_keys_checked p.
Proof.
  unfold SecureMap.retrieveItem, keeps_keys_checked.
  repeat (case_match; simpl; try done); intros [= <-]; jobs; auto with registry.
Qed.

Lemma safe_storeItem this key value μ p :
  (SecureMap.storeItem this key value μ).1 = Return p →
  every_job keeps_keys_checked p.
Proof.
  unfold SecureMap.storeItem, keeps_keys_checked.
  destruct (_keyCheck key) eqn:Hk; simpl; [|done].
  repeat (case_match; simpl; try done); intros [= <-]; jobs; auto with registry.
Qed.

Lemma safe_isEvicted this μ p :
  (Locker.isEvicted this μ).1 = Return p → every_job keeps_keys_checked p.
Proof.
  unfold Locker.isEvicted, SecureMapFactory.isIdInDeviceKeychain,
    _isIdInDeviceKeychain, keeps_keys_checked.
  repeat (case_match; simpl; try done); intros [= <-]; jobs; auto with registry.
Qed.

Lemma safe_evict this μ p :
  (Locker.evict this μ).1 = Return p → every_job keeps_keys_checked p.
Proof.
  unfold Locker.evict, SecureMapFactory.disposeKeysForId.
  destruct (_disposeKeysForId (Locker.id this) μ) as [[q|e] μ'] eqn:Hd; simpl; [|done].
  intros [= <-]. apply every_job_then.
  - eapply safe_disposeKeysForId. by rewrite Hd.
  - unfold keeps_keys_checked. jobs; auto with registry.
Qed.

Lemma begin_safe c μ :
  keys_checked μ →
  keys_checked (begin c μ).2 ∧ Forall task_safe (option_list (begin c μ).1).
Proof.
  intros Hμ. destruct c; simpl; unfold spawned, returned.
  - pose proof (safe_disposeKeysForId id μ) as H.
    unfold SecureMapFactory.disposeKeysForId.
    split; [unfold _disposeKeysForId; by destruct (negb _)|].
    destruct (_disposeKeysForId id μ).1; simpl; [|constructor].
    apply Forall_singleton. by apply (H _ eq_refl).
  - split; [done|]. apply Forall_singleton. apply safe_getMapForId.
  - split; [done|]. apply Forall_singleton. apply safe_isIdInDeviceKeychain.
  - split; [|constructor]. unfold SecureMap.size. by destruct (negb _).
  - split; [|constructor]. unfold SecureMap.empty.
    destruct (_staticTagMap μ !! tag this); simpl; [|done]. by apply keys_checked_set.
  - split; [|constructor]. unfold SecureMap.hasItem. by destruct (negb _).
  - pose proof (safe_retrieveItem this key remove μ) as H.
    split; [unfold SecureMap.retrieveItem; by repeat case_match|].
    destruct (SecureMap.retrieveItem this key remove μ).1; simpl; [|constructor].
    apply Forall_singleton. by apply (H _ eq_refl).
  - pose proof (safe_storeItem this key value μ) as H.
    split; [unfold SecureMap.storeItem; by repeat case_match|].
    destruct (SecureMap.storeItem this key value μ).1; simpl; [|constructor].
    apply Forall_singleton. by apply (H _ eq_refl).
  - split; [|constructor]. done.
  - pose proof (safe_isEvicted this μ) as H.
    split; [unfold Locker.isEvicted; by repeat case_match|].
    destruct (Locker.isEvicted this μ).1; simpl; [|constructor].
    apply Forall_singleton. by apply (H _ eq_refl).
  - pose proof (safe_evict this μ) as H.
    split.
    { unfold Locker.evict, SecureMapFactory.disposeKeysForId, _disposeKeysForId.
      by destruct (negb _). }
    destruct (Locker.evict this μ).1; simpl; [|constructor].
    apply Forall_singleton. by apply (H _ eq_refl).
  - split; [|constructor].
    unfold Locker.keyInUse, SecureMap.hasItem. by destruct (negb _).
  - pose proof (safe_retrieveItem (store this) key true μ) as H.
    unfold Locker.retrieveItem.
    split; [unfold SecureMap.retrieveItem; by repeat case_match|].
    destruct (SecureMap.retrieveItem (store this) key true μ).1; simpl; [|constructor].
    apply Forall_singleton. by apply (H _ eq_refl).
Qed.

Lemma step_safe {P} (s s' : system P) : step s s' → system_safe s → system_safe s'.
Proof.
  intros Hstep [Hμ Hp].
  destruct Hstep as [c s | i s A R c k Hi | i s A job Hi]; simpl.
  - destruct (begin_safe c (mem s) Hμ) as [H1 H2]. split; [done|].
    by apply Forall_app.
  - split; [done|]. apply Forall_insert; [done|].
    apply (Forall_lookup_1 _ _ _ _ Hp) in Hi. apply Hi.
  - apply (Forall_lookup_1 _ _ _ _ Hp) in Hi. simpl in Hi. specialize (Hi (mem s)).
    destruct Hi as [HQ Hj]. split; [by apply HQ|]. by apply Forall_insert.
Qed.

Lemma reachable_safe {P} (s : system P) : reachable s → system_safe s.
Proof.
  intros [κ0 Hrtc].
  assert (H0 : system_safe (System κ0 freshMemory [])).
  { split; [|constructor]. intros t c k v. simpl. by rewrite lookup_empty. }
  induction Hrtc as [|s1 s2 s3 Hstep _ IH]; [done|]. apply IH. by eapply step_safe.
Qed.

(** ** Scripted executions are executions *)

Lemma act_steps {P} a (s : system P) : rtc step s (act a s).
Proof.
  destruct a as [c | i]; simpl.
  - apply rtc_once, step_call.
  - unfold advance.
    destruct (pending s !! i) as [[A [o | R c k | job]]|] eqn:Hi; try reflexivity.
    + by eapply rtc_once, step_served.
    + by eapply rtc_once, step_job.
Qed.

Lemma exec_steps {P} script (s : system P) : rtc step s (exec script s).
Proof.
  revert s. induction script as [|a script IH]; intros s; simpl; [reflexivity|].
  etrans; [apply act_steps | apply IH].
Qed.

Lemma exec_reachable {P} script (s : system P) :
  reachable s → reachable (exec script s).
Proof. intros [κ0 H]. exists κ0. etrans; [exact H | apply exec_steps]. Qed.

Lemma boot_reachable : reachable boot.
Proof. by exists ([] : list jstring). Qed.

Lemma acquired_reachable : reachable acquired.
Proof. do 2 apply exec_reachable. apply boot_reachable. Qed.

(** ** The reference keychain keeps the contract *)

Lemma present_deviceKeychain (κ : list jstring) h :
  present deviceKeychain κ h = bool_decide (h ∈ κ).
Proof.
  unfold present. cbn [perform deviceKeychain fst].
  by case_decide; case_bool_decide.
Qed.

Lemma deviceKeychain_lawful : Lawful deviceKeychain.
Proof.
  split.
  - intros h κ. cbn [perform deviceKeychain fst]. eauto.
  - intros h κ h'. reflexivity.
  - intros h κ u κ' H. cbn [perform deviceKeychain] in H.
    apply (f_equal snd) in H. cbn [snd] in H. subst κ'.
    rewrite present_deviceKeychain. apply bool_decide_true. apply list_elem_of_here.
  - intros h κ u κ' H. cbn [perform deviceKeychain] in H.
    case_decide; [|discriminate H].
    apply (f_equal snd) in H. cbn [snd] in H. subst κ'.
    rewrite present_deviceKeychain. apply bool_decide_false.
    rewrite list_elem_of_filter. by intros [? _].
Qed.

(** ** Other tags are left alone *)

Lemma same_elsewhere_refl t μ : same_elsewhere t μ μ.
Proof. done. Qed.

Lemma same_elsewhere_trans t μ1 μ2 μ3 :
  same_elsewhere t μ1 μ2 → same_elsewhere t μ2 μ3 → same_elsewhere t μ1 μ3.
Proof.
  intros [H1 E1] [H2 E2]. split; [|congruence].
  intros t' Hne. rewrite H2, H1; done.
Qed.

Lemma same_elsewhere_insert t c μ :
  same_elsewhere t μ (assignTagMap (<[t := c]> (_staticTagMap μ)) μ).
Proof. split; [|done]. intros t' Hne. simpl. by rewrite lookup_insert_ne. Qed.

Lemma same_elsewhere_setIn t k v μ :
  same_elsewhere t μ (assignTagMap (Map.setIn t k v (_staticTagMap μ)) μ).
Proof. apply same_elsewhere_insert. Qed.

Lemma same_elsewhere_deleteIn t k μ :
  same_elsewhere t μ (assignTagMap (Map.deleteIn t k (_staticTagMap μ)) μ).
Proof.
  unfold Map.deleteIn. destruct (_staticTagMap μ !! t); [apply same_elsewhere_insert|].
  by destruct μ.
Qed.

#[local] Hint Resolve same_elsewhere_refl same_elsewhere_insert same_elsewhere_setIn
  same_elsewhere_deleteIn : registry.

Lemma storeItem_frame this key value μ :
  same_elsewhere (tag this) μ (SecureMap.storeItem this key value μ).2 ∧
  ∀ p, (SecureMap.storeItem this key value μ).1 = Return p →
       every_job (same_elsewhere (tag this)) p.
Proof.
  unfold SecureMap.storeItem.
  repeat (case_match; simpl; try done); split; try done; try intros p [= <-];
    jobs; auto with registry.
Qed.

Lemma retrieveItem_frame this key remove μ :
  same_elsewhere (tag this) μ (SecureMap.retrieveItem this key remove μ).2 ∧
  ∀ p, (SecureMap.retrieveItem this key remove μ).1 = Return p →
       every_job (same_elsewhere (tag this)) p.
Proof.
  unfold SecureMap.retrieveItem.
  repeat (case_match; simpl; try done); split; try done; try intros p [= <-];
    jobs; auto with registry.
Qed.

Lemma empty_frame this μ :
  same_elsewhere (tag this) μ (SecureMap.empty this μ).2.
Proof.
  unfold SecureMap.empty.
  destruct (_staticTagMap μ !! tag this); simpl; auto with registry.
  apply same_elsewhere_insert.
Qed.

Lemma invoke_frame P {A} t (f : sync (promise A)) κ μ :
  same_elsewhere t μ (f μ).2 →
  (∀ p, (f μ).1 = Return p → every_job (same_elsewhere t) p) →
  same_elsewhere t μ (mem_after (invoke P f κ μ)).
Proof.
  intros H1 H2. unfold invoke. destruct (f μ) as [[p|e] μ']; simpl in *; [|done].
  eapply same_elsewhere_trans; [exact H1|].
  apply every_job_run;
    [apply same_elsewhere_refl | apply same_elsewhere_trans | by apply H2].
Qed.

(** ** Calls made one at a time *)

Lemma getInternalId_inj id id' : _getInternalId id = _getInternalId id' → id = id'.
Proof. unfold _getInternalId. intros H. by do 2 apply app_inv_head in H. Qed.

Lemma run_steps {P A} (p : promise A) (κ : keychain P) μ l :
  rtc step (System κ μ (l ++ [Task p]))
    (System (chain_after (run P p κ μ)) (mem_after (run P p κ μ))
            (l ++ [Task (Settled (settled (run P p κ μ)))])).
Proof.
  revert κ μ.
  induction p as [o | R c k IH | job IH] using promise_induction; intros κ μ.
  - simpl. apply rtc_refl.
  - eapply rtc_l.
    + apply (step_served (length l) (System κ μ (l ++ [Task (Await c k)])) c k).
      simpl. by rewrite lookup_app_r, Nat.sub_diag by lia.
    + simpl. rewrite insert_app_r_alt, Nat.sub_diag by lia. simpl.
      destruct (perform P c κ) as [r κ'] eqn:Hc. simpl. apply IH.
  - eapply rtc_l.
    + apply (step_job (length l) (System κ μ (l ++ [Task (Reaction job)])) job).
      simpl. by rewrite lookup_app_r, Nat.sub_diag by lia.
    + simpl. rewrite insert_app_r_alt, Nat.sub_diag by lia. simpl.
      specialize (IH μ). destruct (job μ) as [p' μ'] eqn:Hj. simpl in *. apply IH.
Qed.

Lemma complete_steps {P} c (s : system P) : rtc step s (complete c s).
Proof.
  eapply rtc_l; [apply (step_call c s)|]. unfold complete.
  destruct (begin c (mem s)) as [[[A p]|] μ']; simpl.
  - apply run_steps.
  - rewrite app_nil_r. apply rtc_refl.
Qed.

Lemma complete_idle {P} c (s : system P) : idle s → idle (complete c s).
Proof.
  unfold idle, complete. intros Hs.
  destruct (begin c (mem s)).1 as [[A p]|]; simpl; [|done].
  apply Forall_app. split; [done|]. by apply Forall_singleton.
Qed.

Lemma between_calls_reachable {P} (s : system P) :
  between_calls s → reachable s ∧ idle s.
Proof.
  intros (κ0 & calls & ->). 
  induction calls as [|c calls IH] using rev_ind.
  - split; [exists κ0; apply rtc_refl | constructor].
  - rewrite foldl_app. simpl. destruct IH as [[κ1 Hr] Hi]. split.
    + exists κ1. etrans; [exact Hr | apply complete_steps].
    + by apply complete_idle.
Qed.

Lemma has_insert_same {V} (id t : jstring) (c : V) (m : gmap jstring V) :
  Map.has t m = true → Map.has id (<[t := c]> m) = Map.has id m.
Proof.
  unfold Map.has. intros Ht. destruct (decide (id = t)) as [->|Hne].
  - rewrite lookup_insert_eq, Ht. by apply bool_decide_true.
  - by rewrite lookup_insert_ne.
Qed.

Section OneAtATime.
Context (P : Provider) (HP : Lawful P) (HF : Framed P).

Lemma together_same (s s' : system P) id :
  Map.has id (_staticTagMap (mem s')) = Map.has id (_staticTagMap (mem s)) →
  present P (chain s') (_getInternalId id) = present P (chain s) (_getInternalId id) →
  together s s' id.
Proof. by left. Qed.

Lemma together_backed (s s' : system P) :
  (∀ id, together s s' id) → backed s → backed s'.
Proof.
  intros Ht Hb id Hid.
  destruct (Ht id) as [[Hh Hp]|[[Hh Hp]|[Hh Hp]]]; simpl in *.
  - rewrite Hp. apply Hb. by rewrite <- Hh.
  - done.
  - by rewrite Hh in Hid.
Qed.

Lemma together_paired (s s' : system P) :
  (∀ id, together s s' id) → paired s → paired s'.
Proof.
  intros Ht Hp id.
  destruct (Ht id) as [[Hh Hk]|[[Hh Hk]|[Hh Hk]]]; simpl in *.
  - rewrite Hh, Hk. apply Hp.
  - by rewrite Hh, Hk.
  - by rewrite Hh, Hk.
Qed.

Lemma together_isIdInDeviceKeychain id (s : system P) :
  run_together s (run P (_isIdInDeviceKeychain id) (chain s) (mem s)).
Proof.
  intros l id'. rewrite run_isIdInDeviceKeychain.
  pose proof (query_keeps P HP (_getInternalId id) (chain s) (_getInternalId id')) as Hq.
  destruct (perform P (getPublicKey (_getInternalId id)) (chain s)) as [o κ1].
  by apply together_same.
Qed.

Lemma together_getMapForId id (s : system P) :
  run_together s (run P (_getMapForId id) (chain s) (mem s)).
Proof.
  intros l id'. destruct (_keyCheck id) eqn:Hid.
  2: { rewrite run_getMapForId_unchecked by done. by apply together_same. }
  rewrite run_getMapForId by done. cbv zeta.
  pose proof (query_keeps P HP (_getInternalId id) (chain s)) as Hq.
  pose proof (Hq (_getInternalId id)) as Hown. unfold present at 2 in Hown.
  assert (Hother : id' ≠ id →
            Map.has id' (_staticTagMap (ensured id (mem s))) =
              Map.has id' (_staticTagMap (mem s))).
  { intros Hne. unfold ensured. destruct (Map.has id (_staticTagMap (mem s))); [done|].
    simpl. unfold Map.has. by rewrite lookup_insert_ne. }
  destruct (perform P (getPublicKey (_getInternalId id)) (chain s))
    as [[[pub|]|e] κ1]; simpl in *.
  - destruct (decide (id' = id)) as [->|Hne].
    + right. left. simpl. by rewrite has_ensured.
    + apply together_same; simpl; [by apply Hother | apply Hq].
  - pose proof (generate_adds P HP (_getInternalId id) κ1) as Hadd.
    pose proof (generate_frame P HF (_getInternalId id) κ1) as Hframe.
    pose proof (generate_failed P HF (_getInternalId id) κ1) as Hfailed.
    destruct (perform P (generate (_getInternalId id)) κ1) as [[u|e] κ2]; simpl in *.
    + destruct (decide (id' = id)) as [->|Hne].
      * right. left. simpl. rewrite has_ensured. split; [done|]. by eapply Hadd.
      * apply together_same; simpl; [by apply Hother|].
        rewrite Hframe, Hq; [done|]. intros Heq%getInternalId_inj. done.
    + apply together_same; simpl; [done|]. by rewrite (Hfailed e κ2), Hq.
  - apply together_same; simpl; [done | apply Hq].
Qed.

Lemma together_disposeKeysForId id (s : system P) :
  run_together s (invoke P (_disposeKeysForId id) (chain s) (mem s)).
Proof.
  intros l id'. destruct (_keyCheck id) eqn:Hid.
  2: { rewrite invoke_disposeKeysForId_unchecked by done. by apply together_same. }
  rewrite invoke_disposeKeysForId by done. cbv zeta.
  pose proof (query_keeps P HP (_getInternalId id) (chain s)) as Hq.
  destruct (perform P (getPublicKey (_getInternalId id)) (chain s))
    as [[[pub|]|e] κ1]; simpl in *;
    [|apply together_same; simpl; [done | apply Hq]..].
  pose proof (delete_removes P HP (_getInternalId id) κ1) as Hgone.
  pose proof (delete_frame P HF (_getInternalId id) κ1) as Hframe.
  pose proof (delete_failed P HF (_getInternalId id) κ1) as Hfailed.
  destruct (perform P (deletePrivateKey (_getInternalId id)) κ1) as [[u|e] κ2];
    simpl in *.
  - destruct (decide (id' = id)) as [->|Hne].
    + right. right. simpl. split; [|by eapply Hgone].
      unfold Map.has. rewrite lookup_delete_eq. apply bool_decide_false.
      by intros [? ?].
    + apply together_same; simpl.
      * unfold Map.has. by rewrite lookup_delete_ne.
      * rewrite Hframe, Hq; [done|]. intros Heq%getInternalId_inj. done.
  - apply together_same; simpl; [done|]. by rewrite (Hfailed e κ2), Hq.
Qed.

Lemma together_evict this (s : system P) :
  run_together s (invoke P (Locker.evict this) (chain s) (mem s)).
Proof.
  intros l id'. rewrite invoke_evict. cbv zeta.
  pose proof (together_disposeKeysForId (Locker.id this) s l id') as Hd.
  by destruct (settled (invoke P (_disposeKeysForId (Locker.id this)) (chain s) (mem s))).
Qed.

Lemma together_storeItem this key value (s : system P) :
  run_together s (invoke P (SecureMap.storeItem this key value) (chain s) (mem s)).
Proof.
  intros l id'. unfold invoke, SecureMap.storeItem.
  destruct (_keyCheck key); simpl; [|by apply together_same].
  destruct (Map.has (tag this) (_staticTagMap (mem s))) eqn:Hhas; simpl;
    [|by apply together_same].
  destruct (Map.hasIn _ _ _); simpl; [by apply together_same|].
  pose proof (encrypt_frame P HF value (fullTag this) (chain s)) as Hkeep.
  destruct (perform P (encrypt value (fullTag this)) (chain s)) as [[enc|e] κ1];
    simpl in *; apply together_same; simpl; try apply Hkeep; [|done].
  unfold Map.setIn. by apply has_insert_same.
Qed.

Lemma together_retrieveItem this key remove (s : system P) :
  run_together s (invoke P (SecureMap.retrieveItem this key remove) (chain s) (mem s)).
Proof.
  intros l id'. unfold invoke, SecureMap.retrieveItem.
  destruct (_keyCheck key); simpl; [|by apply together_same].
  destruct (Map.has (tag this) (_staticTagMap (mem s))) eqn:Hhas; simpl;
    [|by apply together_same].
  destruct (Map.hasIn _ _ _); simpl; [|by apply together_same].
  set (enc := Map.getIn _ _ _ _).
  pose proof (decrypt_frame P HF enc (fullTag this) (chain s)) as Hkeep.
  destruct (perform P (decrypt enc (fullTag this)) (chain s)) as [[v|e] κ1];
    simpl in *; apply together_same; simpl; try apply Hkeep; [|done].
  destruct remove; [|done]. simpl. unfold Map.deleteIn.
  destruct (_staticTagMap (mem s) !! tag this); [|done].
  by apply has_insert_same.
Qed.

Lemma together_isEvicted this (s : system P) :
  run_together s (invoke P (Locker.isEvicted this) (chain s) (mem s)).
Proof.
  intros l id'. unfold invoke, Locker.isEvicted.
  destruct (negb (Locker.get_evicted this (mem s))); simpl; [|by apply together_same].
  pose proof (query_keeps P HP (_getInternalId (Locker.id this)) (chain s)
                (_getInternalId id')) as Hq.
  by destruct (perform P (getPublicKey (_getInternalId (Locker.id this))) (chain s))
    as [[[pub|]|e] κ1]; apply together_same.
Qed.

Lemma complete_spawned {A} (f : sync (promise A)) c (s : system P) :
  begin c (mem s) = spawned (f (mem s)) →
  ∃ l, complete c s =
         let r := invoke P f (chain s) (mem s) in
         System (chain_after r) (mem_after r) l.
Proof.
  intros Hc. unfold complete, invoke. rewrite Hc. unfold spawned.
  destruct (f (mem s)) as [[p|e] μ']; simpl; eauto.
Qed.

Lemma complete_together c (s : system P) id : together s (complete c s) id.
Proof.
  destruct c;
    try (match goal with
         | |- context [complete ?c s] =>
             edestruct (complete_spawned _ c s eq_refl) as [l ->]
         end); cbv zeta.
  - apply together_disposeKeysForId.
  - apply (together_getMapForId id0 s).
  - apply (together_isIdInDeviceKeychain id0 s).
  - apply together_same; [|done]. unfold complete. simpl.
    unfold SecureMap.size. by destruct (negb _).
  - apply together_same; [|done]. unfold complete. simpl. unfold SecureMap.empty.
    destruct (_staticTagMap (mem s) !! tag this) as [c|] eqn:Hc; simpl; [|done].
    apply has_insert_same. unfold Map.has. by rewrite Hc, bool_decide_true by eauto.
  - apply together_same; [|done]. unfold complete. simpl.
    unfold SecureMap.hasItem. by destruct (negb _).
  - apply together_retrieveItem.
  - apply together_storeItem.
  - by apply together_same.
  - apply together_isEvicted.
  - apply together_evict.
  - apply together_same; [|done]. unfold complete. simpl.
    unfold Locker.keyInUse, SecureMap.hasItem. by destruct (negb _).
  - apply together_retrieveItem.
Qed.

End OneAtATime.

Lemma deviceKeychain_framed : Framed deviceKeychain.
Proof.
  split.
  - intros h κ h' Hne. rewrite !present_deviceKeychain. cbn [perform deviceKeychain snd].
    apply bool_decide_ext. rewrite elem_of_cons. split; [by intros [?|?] | by right].
  - intros h κ e κ' h' H. cbn [perform deviceKeychain] in H. discriminate H.
  - intros h κ h' Hne. rewrite !present_deviceKeychain. cbn [perform deviceKeychain].
    case_decide; cbn [snd]; [|done].
    apply bool_decide_ext. rewrite list_elem_of_filter. split; [by intros [_ ?] | by split].
  - intros h κ e κ' h' H. cbn [perform deviceKeychain] in H.
    case_decide; [discriminate H|].
    apply (f_equal snd) in H. cbn [snd] in H. by subst κ'.
  - intros m h κ h'. cbn [perform deviceKeychain]. by case_decide.
  - intros m h κ h'. cbn [perform deviceKeychain]. by case_decide.
Qed.

(** * Properties of the stores and lockers *)

(** ** Store and retrieve *)

(** C1, as stated, fails: on a live store, with a keychain whose [decrypt]
    undoes its [encrypt], the empty key is not present in the store, yet
    [storeItem('', 'secret')] throws and there is no round trip. *)
Lemma empty_key_breaks_round_trip :
  let this := new_SecureMap LOCKER_TAG in
  let κ : keychain deviceKeychain := [fullTag this] in
  let μ := assignTagMap {[tag this := ∅]} freshMemory in
  Map.has (tag this) (_staticTagMap μ) = true ∧
  Map.hasIn (tag this) [] (_staticTagMap μ) = false ∧
  decrypt_inverts_encrypt deviceKeychain κ (fullTag this) (str "secret") ∧
  invoke deviceKeychain (SecureMap.storeItem this [] (str "secret")) κ μ =
    Ran (Rejected KeyEmptyOrWhitespace) κ μ [] ∧
  ¬ round_trip deviceKeychain this [] (str "secret") κ μ.
Proof.
  split; [by vm_compute|]. split; [by vm_compute|]. split; [|split].
  - exists (reverse (str "secret")), [fullTag (new_SecureMap LOCKER_TAG)],
      [fullTag (new_SecureMap LOCKER_TAG)].
    split; vm_compute; reflexivity.
  - reflexivity.
  - intros [H _]. vm_compute in H. discriminate H.
Qed.

(** C1 (amended): for every tag with a live store, every key that passes the
    key check (non-empty, no whitespace) and is not already present in that
    store, and every value, [storeItem(key, value)] followed by
    [retrieveItem(key, false)] resolves with [value], provided the keychain's
    [decrypt] undoes its [encrypt] under the handle's key tag. *)
Theorem storeItem_retrieveItem_round_trip (P : Provider) (this : _SecureMap)
    (key value : jstring) (κ : keychain P) (μ : memory) :
  _keyCheck key = true →
  Map.has (tag this) (_staticTagMap μ) = true →
  Map.hasIn (tag this) key (_staticTagMap μ) = false →
  decrypt_inverts_encrypt P κ (fullTag this) value →
  round_trip P this key value κ μ.
Proof.
  intros Hkey Hhas Hfree (enc & κ1 & κ2 & Henc & Hdec).
  unfold round_trip, invoke, SecureMap.storeItem, SecureMap.retrieveItem.
  rewrite Hkey, Hhas, Hfree. simpl. rewrite Henc. simpl.
  unfold Map.has, Map.hasIn, Map.getIn, Map.setIn. rewrite !lookup_insert_eq. simpl.
  unfold Map.has. rewrite !lookup_insert_eq. simpl. rewrite Hdec. done.
Qed.

Lemma storeItem_retrieveItem_round_trip_witness :
  let this := new_SecureMap LOCKER_TAG in
  _keyCheck (str "k") = true ∧
  Map.has (tag this) (_staticTagMap (mem acquired)) = true ∧
  Map.hasIn (tag this) (str "k") (_staticTagMap (mem acquired)) = false ∧
  decrypt_inverts_encrypt deviceKeychain (chain acquired) (fullTag this) (str "secret") ∧
  round_trip deviceKeychain this (str "k") (str "secret") (chain acquired) (mem acquired).
Proof.
  intros this.
  assert (Hkey : _keyCheck (str "k") = true) by (vm_compute; reflexivity).
  assert (Hhas : Map.has (tag this) (_staticTagMap (mem acquired)) = true)
    by (vm_compute; reflexivity).
  assert (Hfree : Map.hasIn (tag this) (str "k") (_staticTagMap (mem acquired)) = false)
    by (vm_compute; reflexivity).
  assert (Hinv : decrypt_inverts_encrypt deviceKeychain (chain acquired)
                   (fullTag this) (str "secret")).
  { exists (reverse (str "secret")), (chain acquired), (chain acquired).
    split; vm_compute; reflexivity. }
  exact (conj Hkey (conj Hhas (conj Hfree (conj Hinv
    (storeItem_retrieveItem_round_trip deviceKeychain this (str "k") (str "secret")
       (chain acquired) (mem acquired) Hkey Hhas Hfree Hinv))))).
Defined.

(** C7: in [retrieveItem(key, true)] the entry is deleted only in the callback
    that runs once [decrypt] has resolved. For an entry that is present,
    [decrypt] is the one request made and it is served while the entry is
    still in place; if it resolves, the call resolves with its value and the
    entry is then gone; if it is rejected, the call is rejected with the same
    error and the memory is what it was, so the call can be made again. And
    in general: a call that resolves has had [decrypt] resolve, and a call
    that fails, on a check or on [decrypt], leaves the memory as it was. *)
Theorem retrieveItem_removes_after_decrypt (P : Provider) (this : _SecureMap)
    (key : jstring) (κ : keychain P) (μ : memory) :
  let r := invoke P (SecureMap.retrieveItem this key true) κ μ in
  (∀ c enc,
     _keyCheck key = true →
     _staticTagMap μ !! tag this = Some c → c !! key = Some enc →
     requests r = [(Request (decrypt enc (fullTag this)), μ)] ∧
     chain_after r = (perform P (decrypt enc (fullTag this)) κ).2 ∧
     match (perform P (decrypt enc (fullTag this)) κ).1 with
     | Fulfilled v =>
         settled r = Fulfilled v ∧
         mem_after r = assignTagMap (Map.deleteIn (tag this) key (_staticTagMap μ)) μ
     | Rejected e => settled r = Rejected e ∧ mem_after r = μ
     end) ∧
  match settled r with
  | Fulfilled v =>
      ∃ c enc,
        _staticTagMap μ !! tag this = Some c ∧ c !! key = Some enc ∧
        requests r = [(Request (decrypt enc (fullTag this)), μ)] ∧
        perform P (decrypt enc (fullTag this)) κ = (Fulfilled v, chain_after r) ∧
        mem_after r = assignTagMap (Map.deleteIn (tag this) key (_staticTagMap μ)) μ
  | Rejected e => mem_after r = μ
  end.
Proof.
  intros r. subst r. unfold invoke, SecureMap.retrieveItem. split.
  - intros c enc Hkey Ht Hk. rewrite Hkey. simpl.
    unfold Map.has, Map.hasIn, Map.getIn. rewrite Ht. simpl.
    unfold Map.has. rewrite Hk. simpl.
    by destruct (perform P (decrypt enc (fullTag this)) κ) as [[v|e] κ'].
  - destruct (_keyCheck key); simpl; [|done].
    unfold Map.has, Map.hasIn, Map.getIn.
    destruct (_staticTagMap μ !! tag this) as [c|] eqn:Ht; simpl; [|done].
    unfold Map.has.
    destruct (c !! key) as [enc|] eqn:Hk; simpl; [|done].
    destruct (perform P (decrypt enc (fullTag this)) κ) as [[v|e] κ'] eqn:Hd;
      simpl; [|done].
    exists c, enc. by rewrite Hd.
Qed.

Lemma retrieveItem_removes_after_decrypt_witness :
  let this := new_SecureMap LOCKER_TAG in
  let c : gmap jstring jstring := {[str "k" := reverse (str "secret")]} in
  let r := invoke brokenKeychain (SecureMap.retrieveItem this (str "k") true)
                  () (mem stored) in
  _keyCheck (str "k") = true ∧
  _staticTagMap (mem stored) !! tag this = Some c ∧
  c !! str "k" = Some (reverse (str "secret")) ∧
  settled r = Rejected (NativeError (str "keychain unavailable")) ∧
  mem_after r = mem stored.
Proof.
  intros this c r.
  assert (Hkey : _keyCheck (str "k") = true) by (vm_compute; reflexivity).
  assert (Hc : _staticTagMap (mem stored) !! tag this = Some c)
    by (vm_compute; reflexivity).
  assert (Hk : c !! str "k" = Some (reverse (str "secret")))
    by (vm_compute; reflexivity).
  exact (conj Hkey (conj Hc (conj Hk (proj2 (proj2 (proj1
    (retrieveItem_removes_after_decrypt brokenKeychain this (str "k") ()
       (mem stored)) c _ Hkey Hc Hk)))))).
Defined.

(** C3: in every state a process can reach, for every store that exists and
    every key present in its collection, [storeItem(key, value)] fails with
    the already-exists error; the keychain is not asked and the memory, so the
    ciphertext stored under the key, is unchanged. *)
Theorem storeItem_rejects_present_key (P : Provider) (s : system P)
    (this : _SecureMap) (key value enc : jstring) (c : gmap jstring jstring) :
  reachable s →
  _staticTagMap (mem s) !! tag this = Some c →
  c !! key = Some enc →
  invoke P (SecureMap.storeItem this key value) (chain s) (mem s) =
    Ran (Rejected (KeyAlreadyInMap key)) (chain s) (mem s) [] ∧
  kindOf (KeyAlreadyInMap key) = AlreadyExists.
Proof.
  intros Hs Ht Hk. split; [|done].
  destruct (reachable_safe s Hs) as [Hkeys _].
  unfold invoke, SecureMap.storeItem. rewrite (Hkeys _ _ _ _ Ht Hk). simpl.
  unfold Map.has, Map.hasIn. rewrite Ht. simpl. unfold Map.has. rewrite Hk. done.
Qed.

Lemma storeItem_rejects_present_key_witness :
  let this := new_SecureMap LOCKER_TAG in
  let c : gmap jstring jstring := {[str "k" := reverse (str "secret")]} in
  reachable stored ∧
  _staticTagMap (mem stored) !! tag this = Some c ∧
  c !! str "k" = Some (reverse (str "secret")) ∧
  invoke deviceKeychain (SecureMap.storeItem this (str "k") (str "other"))
         (chain stored) (mem stored) =
    Ran (Rejected (KeyAlreadyInMap (str "k"))) (chain stored) (mem stored) [].
Proof.
  intros this c.
  assert (Hreach : reachable stored) by apply exec_reachable, acquired_reachable.
  assert (Hc : _staticTagMap (mem stored) !! tag this = Some c)
    by (vm_compute; reflexivity).
  assert (Hk : c !! str "k" = Some (reverse (str "secret")))
    by (vm_compute; reflexivity).
  exact (conj Hreach (conj Hc (conj Hk (proj1
    (storeItem_rejects_present_key deviceKeychain stored this (str "k") (str "other")
       (reverse (str "secret")) c Hreach Hc Hk))))).
Defined.

(** ** Validation *)

(** C6, as stated, fails: [isIdInDeviceKeychain] is a registry operation, the
    empty tag is an invalid argument, and the call does not fail with a
    validation error: it asks the keychain. *)
Lemma isIdInDeviceKeychain_asks_unchecked :
  _keyCheck [] = false ∧
  run deviceKeychain (SecureMapFactory.isIdInDeviceKeychain []) (chain boot) freshMemory =
    Ran (Fulfilled false) (chain boot) freshMemory
        [(Request (getPublicKey (_getInternalId [])), freshMemory)] ∧
  ¬ fails_unasked
      (run deviceKeychain (SecureMapFactory.isIdInDeviceKeychain []) (chain boot)
           freshMemory)
      InvalidArgument.
Proof.
  split; [reflexivity|]. split; [reflexivity|].
  intros (e & Hs & _). vm_compute in Hs. discriminate Hs.
Qed.

(** C6 (amended): each of these fails with the validation error named,
    before the keychain is asked anything: [getMapForId] with a tag that is
    empty or contains whitespace (invalid argument); [disposeKeysForId] with
    such a tag (invalid argument); [storeItem] and [retrieveItem] with a key
    that is empty or contains whitespace (invalid argument); [storeItem] and
    [retrieveItem] with a checked key on a handle whose collection does not
    exist (disposed); [retrieveItem] with a checked key that is absent from
    an existing collection (not found). ([isIdInDeviceKeychain] does not
    check its tag, and [hasItem] does not check its key.) *)
Theorem validation_fails_before_any_request (P : Provider) (κ : keychain P)
    (μ : memory) :
  (∀ id, _keyCheck id = false →
     fails_unasked (run P (SecureMapFactory.getMapForId id) κ μ) InvalidArgument ∧
     fails_unasked (invoke P (SecureMapFactory.disposeKeysForId id) κ μ)
                   InvalidArgument) ∧
  (∀ this key value remove, _keyCheck key = false →
     fails_unasked (invoke P (SecureMap.storeItem this key value) κ μ)
                   InvalidArgument ∧
     fails_unasked (invoke P (SecureMap.retrieveItem this key remove) κ μ)
                   InvalidArgument) ∧
  (∀ this key value remove, _keyCheck key = true →
     Map.has (tag this) (_staticTagMap μ) = false →
     fails_unasked (invoke P (SecureMap.storeItem this key value) κ μ) Disposed ∧
     fails_unasked (invoke P (SecureMap.retrieveItem this key remove) κ μ) Disposed) ∧
  (∀ this key remove, _keyCheck key = true →
     Map.has (tag this) (_staticTagMap μ) = true →
     Map.hasIn (tag this) key (_staticTagMap μ) = false →
     fails_unasked (invoke P (SecureMap.retrieveItem this key remove) κ μ) NotFound).
Proof.
  split; [|split; [|split]].
  - intros id Hid. split.
    + unfold SecureMapFactory.getMapForId.
      rewrite run_getMapForId_unchecked by done. by eexists.
    + unfold SecureMapFactory.disposeKeysForId.
      rewrite invoke_disposeKeysForId_unchecked by done. by eexists.
  - intros this key value remove Hkey.
    unfold invoke, SecureMap.storeItem, SecureMap.retrieveItem. rewrite Hkey.
    split; by eexists.
  - intros this key value remove Hkey Hhas.
    unfold invoke, SecureMap.storeItem, SecureMap.retrieveItem. rewrite Hkey, Hhas.
    split; by eexists.
  - intros this key remove Hkey Hhas Hin.
    unfold invoke, SecureMap.retrieveItem. rewrite Hkey, Hhas, Hin. by eexists.
Qed.

Lemma validation_fails_before_any_request_witness :
  let this := new_SecureMap LOCKER_TAG in
  _keyCheck (str "a b") = false ∧
  fails_unasked (run deviceKeychain (SecureMapFactory.getMapForId (str "a b"))
                     (chain acquired) (mem acquired)) InvalidArgument ∧
  fails_unasked (invoke deviceKeychain (SecureMap.storeItem this (str "a b") (str "v"))
                        (chain acquired) (mem acquired)) InvalidArgument ∧
  _keyCheck (str "k") = true ∧
  Map.has (tag this) (_staticTagMap (mem acquired)) = true ∧
  Map.hasIn (tag this) (str "k") (_staticTagMap (mem acquired)) = false ∧
  fails_unasked (invoke deviceKeychain (SecureMap.retrieveItem this (str "k") true)
                        (chain acquired) (mem acquired)) NotFound.
Proof.
  intros this.
  pose proof (validation_fails_before_any_request deviceKeychain
                (chain acquired) (mem acquired)) as (Hid & Hkey & _ & Habsent).
  assert (Hbad : _keyCheck (str "a b") = false) by (vm_compute; reflexivity).
  assert (Hk : _keyCheck (str "k") = true) by (vm_compute; reflexivity).
  assert (Hhas : Map.has (tag this) (_staticTagMap (mem acquired)) = true)
    by (vm_compute; reflexivity).
  assert (Hfree : Map.hasIn (tag this) (str "k") (_staticTagMap (mem acquired)) = false)
    by (vm_compute; reflexivity).
  exact (conj Hbad (conj (proj1 (Hid _ Hbad))
          (conj (proj1 (Hkey this _ (str "v") true Hbad))
            (conj Hk (conj Hhas (conj Hfree (Habsent this _ true Hk Hhas Hfree))))))).
Defined.

(** ** Disposal *)

(** C4: for a tag that passes the key check and whose keypair the keychain
    reports, [disposeKeysForId] asks the keychain to delete the keypair while
    [_staticTagMap] is still what it was; if the deletion is rejected the call
    is rejected with the same error and the memory is what it was before the
    call; if it resolves, the tag's collection is dropped. *)
Theorem disposeKeys_deletes_keypair_first (P : Provider) (id : jstring)
    (κ κ1 : keychain P) (μ : memory) (pub : jstring) :
  _keyCheck id = true →
  perform P (getPublicKey (_getInternalId id)) κ = (Fulfilled (Some pub), κ1) →
  let r := invoke P (SecureMapFactory.disposeKeysForId id) κ μ in
  requests r = [(Request (getPublicKey (_getInternalId id)), μ);
                (Request (deletePrivateKey (_getInternalId id)), μ)] ∧
  chain_after r = (perform P (deletePrivateKey (_getInternalId id)) κ1).2 ∧
  match (perform P (deletePrivateKey (_getInternalId id)) κ1).1 with
  | Fulfilled _ =>
      settled r = Fulfilled () ∧
      mem_after r = assignTagMap (delete id (_staticTagMap μ)) μ
  | Rejected e => settled r = Rejected e ∧ mem_after r = μ
  end.
Proof.
  intros Hid Hq r. subst r. unfold SecureMapFactory.disposeKeysForId.
  rewrite invoke_disposeKeysForId by done. cbv zeta. rewrite Hq.
  by destruct (perform P (deletePrivateKey (_getInternalId id)) κ1) as [[u|e] κ2].
Qed.

Lemma disposeKeys_deletes_keypair_first_witness :
  let h := _getInternalId LOCKER_TAG in
  let r := invoke deviceKeychain (SecureMapFactory.disposeKeysForId LOCKER_TAG)
                  (chain stored) (mem stored) in
  _keyCheck LOCKER_TAG = true ∧
  perform deviceKeychain (getPublicKey h) (chain stored) =
    (Fulfilled (Some (publicKeyOf h)), chain stored) ∧
  requests r = [(Request (getPublicKey h), mem stored);
                (Request (deletePrivateKey h), mem stored)].
Proof.
  intros h r.
  assert (Hid : _keyCheck LOCKER_TAG = true) by (vm_compute; reflexivity).
  assert (Hq : perform deviceKeychain (getPublicKey h) (chain stored) =
                 (Fulfilled (Some (publicKeyOf h)), chain stored))
    by (vm_compute; reflexivity).
  exact (conj Hid (conj Hq (proj1
    (disposeKeys_deletes_keypair_first deviceKeychain LOCKER_TAG (chain stored)
       (chain stored) (mem stored) (publicKeyOf h) Hid Hq)))).
Defined.

(** ** Eviction state *)

(** C9: for a locker whose [#evicted] is false, [isEvicted()] asks the
    keychain for the public key. If the keychain reports no key, or rejects
    the request, the call resolves with true and the locker's [#evicted]
    reads true afterwards, nothing else in the memory having changed; the
    rejection is not passed on. If it reports a key, the call resolves with
    false, the memory is left as it was and [#evicted] still reads false. *)
Theorem isEvicted_fails_open (P : Provider) (this : VarLocker)
    (κ : keychain P) (μ : memory) :
  Locker.get_evicted this μ = false →
  let h := _getInternalId (Locker.id this) in
  let r := invoke P (Locker.isEvicted this) κ μ in
  requests r = [(Request (getPublicKey h), μ)] ∧
  chain_after r = (perform P (getPublicKey h) κ).2 ∧
  match (perform P (getPublicKey h) κ).1 with
  | Fulfilled (Some _) =>
      settled r = Fulfilled false ∧ mem_after r = μ ∧
      Locker.get_evicted this (mem_after r) = false
  | Fulfilled None | Rejected _ =>
      settled r = Fulfilled true ∧ mem_after r = Locker.set_evicted this true μ ∧
      Locker.get_evicted this (mem_after r) = true ∧
      _staticTagMap (mem_after r) = _staticTagMap μ ∧
      ∀ other, self other ≠ self this →
        Locker.get_evicted other (mem_after r) = Locker.get_evicted other μ
  end.
Proof.
  intros Hflag h r. subst r h. unfold invoke, Locker.isEvicted.
  rewrite Hflag. simpl.
  assert (Hset : Locker.get_evicted this (Locker.set_evicted this true μ) = true ∧
                 ∀ other, self other ≠ self this →
                   Locker.get_evicted other (Locker.set_evicted this true μ) =
                     Locker.get_evicted other μ).
  { unfold Locker.get_evicted. simpl. split; [by rewrite lookup_insert_eq|].
    intros other Hne. by rewrite lookup_insert_ne. }
  destruct Hset as [Hread Hothers].
  by destruct (perform P (getPublicKey (_getInternalId (Locker.id this))) κ)
    as [[[pub|]|e] κ'].
Qed.

Lemma isEvicted_fails_open_witness :
  let r := invoke brokenKeychain (Locker.isEvicted commonLocker) () (mem acquired) in
  Locker.get_evicted commonLocker (mem acquired) = false ∧
  settled r = Fulfilled true ∧
  mem_after r = Locker.set_evicted commonLocker true (mem acquired) ∧
  Locker.get_evicted commonLocker (mem_after r) = true.
Proof.
  intros r.
  assert (Hflag : Locker.get_evicted commonLocker (mem acquired) = false)
    by (vm_compute; reflexivity).
  pose proof (proj2 (proj2
    (isEvicted_fails_open brokenKeychain commonLocker () (mem acquired) Hflag)))
    as (Hres & Hmem & Hread & _).
  exact (conj Hflag (conj Hres (conj Hmem Hread))).
Defined.

(** ** With a keychain that keeps its contract *)

Section Contract.
Context (P : Provider) (HP : Lawful P).

Lemma present_as_answered κ h :
  present P κ h =
    match (perform P (getPublicKey h) κ).1 with
    | Fulfilled (Some _) => true
    | _ => false
    end.
Proof. done. Qed.

Lemma isIdInDeviceKeychain_when_present id κ μ :
  present P κ (_getInternalId id) = true →
  settled (run P (_isIdInDeviceKeychain id) κ μ) = Fulfilled true.
Proof.
  intros Hp. rewrite run_isIdInDeviceKeychain. unfold present in Hp.
  by destruct (perform P (getPublicKey (_getInternalId id)) κ) as [[[pub|]|e] κ2].
Qed.

(** C5: for a tag that passes the key check, once [getMapForId] has resolved,
    [isIdInDeviceKeychain] resolves with true; a tag that had no collection
    has an empty one and a tag that had one has the memory unchanged. When
    the keypair was already there the call resolves after the one query: no
    keypair is generated. *)
Theorem getMapForId_ensures_store (id : jstring) (κ : keychain P) (μ : memory) :
  _keyCheck id = true →
  let h := _getInternalId id in
  let r := run P (SecureMapFactory.getMapForId id) κ μ in
  (settled r = Fulfilled (new_SecureMap id) →
     settled (run P (SecureMapFactory.isIdInDeviceKeychain id)
                (chain_after r) (mem_after r)) = Fulfilled true ∧
     (_staticTagMap μ !! id = None →
        mem_after r = assignTagMap (<[id := ∅]> (_staticTagMap μ)) μ) ∧
     (is_Some (_staticTagMap μ !! id) → mem_after r = μ)) ∧
  (present P κ h = true →
     settled r = Fulfilled (new_SecureMap id) ∧
     requests r = [(Request (getPublicKey h), μ)]).
Proof using HP.
  intros Hid h r. subst r h.
  unfold SecureMapFactory.getMapForId, SecureMapFactory.isIdInDeviceKeychain.
  rewrite (run_getMapForId P id κ μ Hid). cbv zeta.
  pose proof (ensured_new id μ) as Hnew. pose proof (ensured_old id μ) as Hold.
  pose proof (query_keeps P HP (_getInternalId id) κ (_getInternalId id)) as Hkeep.
  rewrite (present_as_answered κ) in Hkeep |- *.
  destruct (perform P (getPublicKey (_getInternalId id)) κ) as [[[pub|]|e] κ1] eqn:Hq;
    simpl in *.
  - split; [|done]. intros _. split; [|done].
    by apply isIdInDeviceKeychain_when_present.
  - split; [|done].
    destruct (perform P (generate (_getInternalId id)) κ1) as [[u|e] κ2] eqn:Hg;
      simpl; [|done].
    intros _. split; [|done]. apply isIdInDeviceKeychain_when_present.
    by eapply (generate_adds P HP).
  - split; done.
Qed.

(** C8: once [evict()] has resolved on a locker, [isEvicted()] resolves with
    true and asks the keychain nothing, and [evict()] called again fails with
    the not-found error ("keys already disposed"), leaving the memory as
    it is. *)
Theorem evict_then_isEvicted_then_evict (this : VarLocker) (κ : keychain P)
    (μ : memory) :
  let r := invoke P (Locker.evict this) κ μ in
  settled r = Fulfilled this →
  invoke P (Locker.isEvicted this) (chain_after r) (mem_after r) =
    Ran (Fulfilled true) (chain_after r) (mem_after r) [] ∧
  ∃ r2 e,
    r2 = invoke P (Locker.evict this) (chain_after r) (mem_after r) ∧
    settled r2 = Rejected e ∧ kindOf e = NotFound ∧ mem_after r2 = mem_after r.
Proof using HP.
  intros r. subst r. rewrite invoke_evict. cbv zeta.
  destruct (_keyCheck (Locker.id this)) eqn:Hid.
  2: { by rewrite invoke_disposeKeysForId_unchecked. }
  rewrite invoke_disposeKeysForId by done. cbv zeta.
  destruct (perform P (getPublicKey (_getInternalId (Locker.id this))) κ)
    as [[[pub|]|e] κ1] eqn:Hq; simpl; [|done|done].
  destruct (perform P (deletePrivateKey (_getInternalId (Locker.id this))) κ1)
    as [[u|e] κ2] eqn:Hd; simpl; [|done].
  intros _. split.
  - unfold invoke, Locker.isEvicted, Locker.get_evicted. simpl.
    by rewrite lookup_insert_eq.
  - eexists _, (KeysAlreadyDisposed (Locker.id this)). split; [reflexivity|].
    rewrite invoke_evict. cbv zeta. rewrite invoke_disposeKeysForId by done. cbv zeta.
    pose proof (delete_removes P HP _ _ _ _ Hd) as Hgone. unfold present in Hgone.
    destruct (query_answers P HP (_getInternalId (Locker.id this)) κ2) as [pub' Hq'].
    destruct (perform P (getPublicKey (_getInternalId (Locker.id this))) κ2)
      as [o κ3]; simpl in *. subst o. by destruct pub'.
Qed.

End Contract.

Lemma getMapForId_ensures_store_witness :
  let r := run deviceKeychain (SecureMapFactory.getMapForId LOCKER_TAG)
               (chain boot) freshMemory in
  _keyCheck LOCKER_TAG = true ∧
  settled r = Fulfilled (new_SecureMap LOCKER_TAG) ∧
  settled (run deviceKeychain (SecureMapFactory.isIdInDeviceKeychain LOCKER_TAG)
               (chain_after r) (mem_after r)) = Fulfilled true.
Proof.
  intros r.
  assert (Hid : _keyCheck LOCKER_TAG = true) by (vm_compute; reflexivity).
  assert (Hr : settled r = Fulfilled (new_SecureMap LOCKER_TAG))
    by (vm_compute; reflexivity).
  exact (conj Hid (conj Hr (proj1 (proj1
    (getMapForId_ensures_store deviceKeychain deviceKeychain_lawful LOCKER_TAG
       (chain boot) freshMemory Hid) Hr)))).
Defined.

Lemma evict_then_isEvicted_then_evict_witness :
  let r := invoke deviceKeychain (Locker.evict commonLocker)
                  (chain stored) (mem stored) in
  settled r = Fulfilled commonLocker ∧
  invoke deviceKeychain (Locker.isEvicted commonLocker) (chain_after r) (mem_after r) =
    Ran (Fulfilled true) (chain_after r) (mem_after r) [].
Proof.
  intros r.
  assert (Hr : settled r = Fulfilled commonLocker) by (vm_compute; reflexivity).
  exact (conj Hr (proj1
    (evict_then_isEvicted_then_evict deviceKeychain deviceKeychain_lawful
       commonLocker (chain stored) (mem stored) Hr))).
Defined.

(** C2, as stated, fails. From a device with no keypair, while
    [getMapForId('locker')] is in flight the keychain holds the keypair and
    [_staticTagMap] has no collection for the tag; and while
    [disposeKeysForId('locker')] is in flight the collection is there and the
    keypair is gone, so a tag that is a key of [_staticTagMap] has no
    keypair. *)
Lemma keypair_and_collection_not_atomic :
  (reachable generating ∧
   Map.has LOCKER_TAG (_staticTagMap (mem generating)) = false ∧
   present deviceKeychain (chain generating) (_getInternalId LOCKER_TAG) = true) ∧
  (reachable disposing ∧
   Map.has LOCKER_TAG (_staticTagMap (mem disposing)) = true ∧
   present deviceKeychain (chain disposing) (_getInternalId LOCKER_TAG) = false) ∧
  ¬ (∀ s : system deviceKeychain, reachable s → paired s) ∧
  ¬ (∀ s : system deviceKeychain, reachable s → backed s).
Proof.
  assert (Hg : reachable generating) by apply exec_reachable, boot_reachable.
  assert (Hd : reachable disposing) by apply exec_reachable, acquired_reachable.
  split; [|split; [|split]].
  - split; [exact Hg|]. split; vm_compute; reflexivity.
  - split; [exact Hd|]. split; vm_compute; reflexivity.
  - intros Hall. specialize (Hall generating Hg LOCKER_TAG).
    vm_compute in Hall. discriminate Hall.
  - intros Hall. specialize (Hall disposing Hd LOCKER_TAG).
    assert (Hhas : Map.has LOCKER_TAG (_staticTagMap (mem disposing)) = true)
      by (vm_compute; reflexivity).
    specialize (Hall Hhas). vm_compute in Hall. discriminate Hall.
Qed.

Section Pairing.
Context (P : Provider) (HP : Lawful P) (HF : Framed P).

(** C2 (amended): with a keychain that keeps its contract, in every state
    between calls that do not overlap (each call of the module made when
    nothing is in flight and left to settle before the next), every tag that
    is a key of [_staticTagMap] has a keypair under its internal id in the
    keychain; these states are states of the interleaved execution in which
    nothing is in flight. A call left to settle also keeps the two together
    in both directions: if before it the tags with a collection were exactly
    those with a keypair, so they are after it. And whatever the state a
    call starts in: when [getMapForId] has resolved the tag is a key of
    [_staticTagMap] and the keychain holds its keypair, and when
    [disposeKeysForId] has resolved the tag is no key of [_staticTagMap] and
    the keychain holds no keypair for it. Nothing is said of the states in
    which a call is in flight. *)
Theorem keypair_and_collection_between_calls :
  (∀ s : system P, between_calls s → reachable s ∧ idle s ∧ backed s) ∧
  (∀ (s : system P) c, paired s → paired (complete c s)) ∧
  (∀ id (κ : keychain P) μ,
     let h := _getInternalId id in
     (∀ sm, let r := run P (SecureMapFactory.getMapForId id) κ μ in
        settled r = Fulfilled sm →
        Map.has id (_staticTagMap (mem_after r)) = true ∧
        present P (chain_after r) h = true) ∧
     (let r := invoke P (SecureMapFactory.disposeKeysForId id) κ μ in
        settled r = Fulfilled () →
        Map.has id (_staticTagMap (mem_after r)) = false ∧
        present P (chain_after r) h = false)).
Proof using HP HF.
  split; [|split].
  - intros s Hs. destruct (between_calls_reachable s Hs) as [Hr Hi].
    split; [done|]. split; [done|].
    destruct Hs as (κ0 & calls & ->). clear Hr Hi.
    induction calls as [|c calls IH] using rev_ind.
    + intros id Hid. by vm_compute in Hid.
    + rewrite foldl_app. simpl. eapply together_backed; [|exact IH].
      intros id. by apply complete_together.
  - intros s c. apply together_paired. intros id. by apply complete_together.
  - intros id κ μ h. subst h.
    unfold SecureMapFactory.getMapForId, SecureMapFactory.disposeKeysForId.
    destruct (_keyCheck id) eqn:Hid.
    2: { rewrite run_getMapForId_unchecked, invoke_disposeKeysForId_unchecked by done.
         split; [intros sm|]; simpl; done. }
    rewrite run_getMapForId, invoke_disposeKeysForId by done. cbv zeta.
    pose proof (query_keeps P HP (_getInternalId id) κ (_getInternalId id)) as Hkeep.
    rewrite (present_as_answered P κ) in Hkeep.
    destruct (perform P (getPublicKey (_getInternalId id)) κ) as [[[pub|]|e] κ1] eqn:Hq;
      simpl in *.
    + split.
      * intros sm _. by rewrite has_ensured.
      * destruct (perform P (deletePrivateKey (_getInternalId id)) κ1)
          as [[u|e] κ2] eqn:Hd; simpl; [|done].
        intros _. split; [|by eapply (delete_removes P HP)].
        unfold Map.has. rewrite lookup_delete_eq. apply bool_decide_false.
        by intros [? ?].
    + split; [|done].
      destruct (perform P (generate (_getInternalId id)) κ1) as [[u|e] κ2] eqn:Hg;
        simpl; [|done].
      intros sm _. rewrite has_ensured. split; [done|]. by eapply (generate_adds P HP).
    + split; [intros sm|]; done.
Qed.

End Pairing.

Lemma keypair_and_collection_between_calls_witness :
  between_calls servedInTurn ∧
  Map.has LOCKER_TAG (_staticTagMap (mem servedInTurn)) = true ∧
  present deviceKeychain (chain servedInTurn) (_getInternalId LOCKER_TAG) = true.
Proof.
  assert (Hs : between_calls servedInTurn).
  { exists ([] : list jstring),
      [call_getMapForId LOCKER_TAG;
       call_storeItem (new_SecureMap LOCKER_TAG) (str "k") (str "secret")].
    reflexivity. }
  assert (Hhas : Map.has LOCKER_TAG (_staticTagMap (mem servedInTurn)) = true)
    by (vm_compute; reflexivity).
  exact (conj Hs (conj Hhas (proj2 (proj2 (proj1
    (keypair_and_collection_between_calls deviceKeychain deviceKeychain_lawful
       deviceKeychain_framed) servedInTurn Hs)) LOCKER_TAG Hhas))).
Defined.

(** ** Frame *)

(** C10: [storeItem], [retrieveItem] and [empty] of a handle bound to a tag
    change nothing but that tag's collection. This holds of the synchronous
    part of each call and of every callback it queues, whatever the memory is
    when the callback runs, and so of a whole run: every other tag has the
    collection it had, or none if it had none, and no locker's flag
    changes. *)
Theorem handle_operations_touch_only_their_tag (P : Provider) (this : _SecureMap)
    (key value : jstring) (remove : bool) (κ : keychain P) (μ : memory) :
  let only_own := same_elsewhere (tag this) in
  (only_own μ (SecureMap.storeItem this key value μ).2 ∧
   ∀ p, (SecureMap.storeItem this key value μ).1 = Return p → every_job only_own p) ∧
  (only_own μ (SecureMap.retrieveItem this key remove μ).2 ∧
   ∀ p, (SecureMap.retrieveItem this key remove μ).1 = Return p →
        every_job only_own p) ∧
  only_own μ (SecureMap.empty this μ).2 ∧
  only_own μ (mem_after (invoke P (SecureMap.storeItem this key value) κ μ)) ∧
  only_own μ (mem_after (invoke P (SecureMap.retrieveItem this key remove) κ μ)).
Proof.
  intros only_own. subst only_own.
  pose proof (storeItem_frame this key value μ) as [Hs1 Hs2].
  pose proof (retrieveItem_frame this key remove μ) as [Hr1 Hr2].
  split; [done|]. split; [done|]. split; [apply empty_frame|].
  split; by apply invoke_frame.
Qed.

Lemma handle_operations_touch_only_their_tag_witness :
  let this := new_SecureMap LOCKER_TAG in
  let p := native (encrypt (str "v") (fullTag this))
           >>=then (λ encVal μ,
             (Return (resolve this),
              assignTagMap (Map.setIn (tag this) (str "j") encVal (_staticTagMap μ)) μ)) in
  (SecureMap.storeItem this (str "j") (str "v") (mem stored)).1 = Return p ∧
  every_job (same_elsewhere LOCKER_TAG) p.
Proof.
  intros this p.
  assert (Hp : (SecureMap.storeItem this (str "j") (str "v") (mem stored)).1 = Return p)
    by reflexivity.
  exact (conj Hp (proj2 (proj1
    (handle_operations_touch_only_their_tag deviceKeychain this (str "j") (str "v")
       true (chain stored) (mem stored))) p Hp)).
Defined.

(** * Further properties *)

(** ** Generated keys *)

Lemma length_letters ρ drawn n : length (letters ρ drawn n) = n.
Proof. unfold letters. by rewrite length_fmap, length_seq. Qed.

Lemma lowercase_letters ρ drawn n :
  (∀ i, (i < n)%nat → (ρ (drawn + i)%nat < 26)%N) → lowercase (letters ρ drawn n).
Proof.
  intros H. unfold lowercase, letters. apply Forall_fmap, Forall_forall.
  intros i Hi. apply elem_of_seq in Hi. simpl. unfold fromCharCode.
  specialize (H i ltac:(lia)). rewrite N.mod_small by lia. lia.
Qed.

Lemma printable_isWhiteSpace c : (33 ≤ c ≤ 126)%N → isWhiteSpace c = false.
Proof.
  intros Hc. unfold isWhiteSpace.
  rewrite (proj2 (N.leb_gt c 13)) by lia.
  rewrite (proj2 (N.leb_gt 8192 c)) by lia.
  repeat match goal with
  | |- context [(c =? ?b)%N] => rewrite (proj2 (N.eqb_neq c b)) by lia
  end.
  by rewrite !andb_false_r.
Qed.

Lemma printable_no_whitespace s :
  Forall (λ c, (33 ≤ c ≤ 126)%N) s → existsb isWhiteSpace s = false.
Proof.
  induction 1 as [|c s Hc _ IH]; [done|]. simpl.
  by rewrite IH, printable_isWhiteSpace.
Qed.

Lemma lowercase_no_whitespace s : lowercase s → existsb isWhiteSpace s = false.
Proof.
  intros Hs. apply printable_no_whitespace. eapply Forall_impl; [exact Hs|].
  simpl. intros c Hc. lia.
Qed.

Lemma lowercase_keyCheck s : lowercase s → s ≠ [] → _keyCheck s = true.
Proof.
  intros Hs Hne. unfold _keyCheck. rewrite lowercase_no_whitespace by done.
  by rewrite bool_decide_false.
Qed.

Lemma zeros_in_range : in_range zeros.
Proof. intros i. unfold zeros. lia. Qed.

Lemma sixThenOnes_in_range : in_range sixThenOnes.
Proof. intros i. unfold sixThenOnes. destruct (i <? 6)%nat; lia. Qed.

Lemma generateKeyString_in_bounds keyLen ρ drawn :
  (4 ≤ keyLen ≤ 64)%Z →
  generateKeyString keyLen ρ drawn =
    (inr (letters ρ drawn (Z.to_nat keyLen)), (drawn + Z.to_nat keyLen)%nat).
Proof.
  intros H. unfold generateKeyString.
  destruct (Z.ltb_spec keyLen 4), (Z.ltb_spec 64 keyLen); simpl; try lia. done.
Qed.

Lemma candidate_next keyLen ρ drawn n :
  letters ρ (drawn + S n * Z.to_nat keyLen) (Z.to_nat keyLen) =
    candidate keyLen ρ drawn (S n).
Proof. done. Qed.

Lemma candidate_0 keyLen ρ drawn :
  candidate keyLen ρ drawn 0 = letters ρ drawn (Z.to_nat keyLen).
Proof. unfold candidate. f_equal. lia. Qed.

Lemma candidate_keyCheck keyLen ρ drawn n :
  (4 ≤ keyLen ≤ 64)%Z → in_range ρ → _keyCheck (candidate keyLen ρ drawn n) = true.
Proof.
  intros Hlen Hρ. apply lowercase_keyCheck.
  - apply lowercase_letters. intros. apply Hρ.
  - intros Hnil. apply (f_equal length) in Hnil. unfold candidate in Hnil.
    rewrite length_letters in Hnil. simpl in Hnil. lia.
Qed.

(** X1: [generateKeyString(len)] throws for an integer [len] below 4 or above
    64, before any call of [Math.random]. For [4 <= len <= 64] it returns a
    string of exactly [len] code units, after exactly [len] calls of
    [Math.random]; when every draw lies in 0..25 each code unit is a letter
    'a'..'z', so the string passes the key check of the store. *)
Theorem generateKeyString_length_and_letters (len : Z) (ρ : entropy) (drawn : nat) :
  (¬ (4 ≤ len ≤ 64)%Z → generateKeyString len ρ drawn = (inl LenOutOfBounds, drawn)) ∧
  ((4 ≤ len ≤ 64)%Z →
     ∃ key, generateKeyString len ρ drawn = (inr key, (drawn + Z.to_nat len)%nat) ∧
            Z.of_nat (length key) = len ∧
            (in_range ρ → lowercase key ∧ _keyCheck key = true)).
Proof.
  unfold generateKeyString. split; intros Hlen.
  - destruct (Z.ltb_spec len 4), (Z.ltb_spec 64 len); simpl; try done. lia.
  - destruct (Z.ltb_spec len 4), (Z.ltb_spec 64 len); simpl; try lia.
    eexists. split; [done|]. rewrite length_letters. split; [lia|].
    intros Hρ. assert (Hl : lowercase (letters ρ drawn (Z.to_nat len))).
    { apply lowercase_letters. intros i _. apply Hρ. }
    split; [done|]. apply lowercase_keyCheck; [done|].
    intros Hnil. apply (f_equal length) in Hnil. rewrite length_letters in Hnil.
    simpl in Hnil. lia.
Qed.

Lemma generateKeyString_length_and_letters_witness :
  (4 ≤ 6 ≤ 64)%Z ∧
  ∃ key, generateKeyString 6 zeros 0 = (inr key, (0 + Z.to_nat 6)%nat) ∧
         Z.of_nat (length key) = 6%Z ∧
         (in_range zeros → lowercase key ∧ _keyCheck key = true).
Proof.
  assert (H : (4 ≤ 6 ≤ 64)%Z) by lia.
  exact (conj H (proj2 (generateKeyString_length_and_letters 6 zeros 0) H)).
Defined.

(** ** The retry loop of [VarLocker.storeItem] *)

Lemma keyInUse_present this key μ c :
  _staticTagMap μ !! Locker.id this = Some c →
  Locker.keyInUse this key μ = (Return (bool_decide (is_Some (c !! key))), μ).
Proof.
  intros Hc. unfold Locker.keyInUse, SecureMap.hasItem, Map.has, Map.hasIn.
  unfold Locker.id in Hc. rewrite Hc. simpl. done.
Qed.

Lemma keyInUse_memory this key μ r μ' :
  Locker.keyInUse this key μ = (r, μ') → μ' = μ.
Proof.
  unfold Locker.keyInUse, SecureMap.hasItem. destruct (negb _); by intros [= _ <-].
Qed.

(** What the loop returns is the key it was given or one it generated, and it
    is not in use. *)
Lemma retryWhileInUse_returns (Φ : jstring → Prop) fuel this keyLen key ρ drawn μ
    k drawn' μ' :
  (4 ≤ keyLen ≤ 64)%Z →
  Φ key → (∀ d, Φ (letters ρ d (Z.to_nat keyLen))) →
  Locker.retryWhileInUse fuel this keyLen key ρ drawn μ = Some (inr k, drawn', μ') →
  μ' = μ ∧ Locker.keyInUse this k μ = (Return false, μ) ∧ Φ k.
Proof.
  intros Hlen Hkey Hgen. revert key drawn Hkey.
  induction fuel as [|fuel IH]; intros key drawn Hkey; simpl;
    destruct (Locker.keyInUse this key μ) as [[[]|e] μ1] eqn:Huse;
    pose proof (keyInUse_memory _ _ _ _ _ Huse) as ->; try done.
  - intros [= <- <- <-]. done.
  - rewrite generateKeyString_in_bounds by done. intros H.
    eapply IH; [apply Hgen | exact H].
  - intros [= <- <- <-]. done.
Qed.

Lemma retryWhileInUse_throws fuel this keyLen key ρ drawn μ e drawn' μ' :
  (4 ≤ keyLen ≤ 64)%Z →
  Locker.retryWhileInUse fuel this keyLen key ρ drawn μ = Some (inl e, drawn', μ') →
  μ' = μ ∧ ∃ e', e = StoreError e'.
Proof.
  intros Hlen. revert key drawn.
  induction fuel as [|fuel IH]; intros key drawn; simpl;
    destruct (Locker.keyInUse this key μ) as [[[]|e0] μ1] eqn:Huse;
    pose proof (keyInUse_memory _ _ _ _ _ Huse) as ->; try done.
  - intros [= <- <- <-]. eauto.
  - rewrite generateKeyString_in_bounds by done. apply IH.
  - intros [= <- <- <-]. eauto.
Qed.

Lemma retryWhileInUse_finds fuel this keyLen ρ drawn μ c n0 m :
  (4 ≤ keyLen ≤ 64)%Z →
  _staticTagMap μ !! Locker.id this = Some c →
  (∀ j, (n0 ≤ j < n0 + m)%nat → is_Some (c !! candidate keyLen ρ drawn j)) →
  c !! candidate keyLen ρ drawn (n0 + m) = None →
  (m ≤ fuel)%nat →
  Locker.retryWhileInUse fuel this keyLen (candidate keyLen ρ drawn n0) ρ
      (drawn + S n0 * Z.to_nat keyLen) μ =
    Some (inr (candidate keyLen ρ drawn (n0 + m)),
          (drawn + S (n0 + m) * Z.to_nat keyLen)%nat, μ).
Proof.
  intros Hlen Hc. revert fuel n0.
  induction m as [|m IH]; intros fuel n0 Hused Hfree Hfuel.
  - rewrite Nat.add_0_r in *.
    destruct fuel; cbn [Locker.retryWhileInUse];
      rewrite (keyInUse_present _ _ _ _ Hc), Hfree;
      rewrite bool_decide_false by (by intros [? ?]); done.
  - destruct fuel as [|fuel]; [lia|]. cbn [Locker.retryWhileInUse].
    rewrite (keyInUse_present _ _ _ _ Hc).
    rewrite bool_decide_true by (apply Hused; lia).
    rewrite generateKeyString_in_bounds by done.
    rewrite candidate_next.
    replace (n0 + S m)%nat with (S n0 + m)%nat in * by lia.
    replace (drawn + S n0 * Z.to_nat keyLen + Z.to_nat keyLen)%nat
      with (drawn + S (S n0) * Z.to_nat keyLen)%nat by lia.
    apply IH; [|done|lia]. intros j Hj. apply Hused. lia.
Qed.

Lemma retryWhileInUse_spins fuel this keyLen ρ drawn μ c n0 :
  (4 ≤ keyLen ≤ 64)%Z →
  _staticTagMap μ !! Locker.id this = Some c →
  (∀ j, is_Some (c !! candidate keyLen ρ drawn j)) →
  Locker.retryWhileInUse fuel this keyLen (candidate keyLen ρ drawn n0) ρ
      (drawn + S n0 * Z.to_nat keyLen) μ = None.
Proof.
  intros Hlen Hc Hused. revert n0.
  induction fuel as [|fuel IH]; intros n0; cbn [Locker.retryWhileInUse];
    rewrite (keyInUse_present _ _ _ _ Hc), bool_decide_true by apply Hused; [done|].
  rewrite generateKeyString_in_bounds by done. rewrite candidate_next.
  replace (drawn + S n0 * Z.to_nat keyLen + Z.to_nat keyLen)%nat
    with (drawn + S (S n0) * Z.to_nat keyLen)%nat by lia.
  apply IH.
Qed.

(** ** [VarLocker.storeItem] *)

Lemma keyLen_test keyLen :
  ((keyLen <? 6) || (32 <? keyLen))%Z = bool_decide (¬ (6 ≤ keyLen ≤ 32)%Z).
Proof.
  destruct (Z.ltb_spec keyLen 6), (Z.ltb_spec 32 keyLen); simpl;
    case_bool_decide; try done; lia.
Qed.

Lemma SecureMap_storeItem_memory this key item μ r μ' :
  SecureMap.storeItem this key item μ = (r, μ') → μ' = μ.
Proof.
  unfold SecureMap.storeItem. repeat case_match; by intros [= _ <-].
Qed.

(** X2: for a whole number [keyLen], [VarLocker.storeItem] throws on an empty
    item, and on a non-empty item with [keyLen] outside 6..32, before a key
    is drawn and with the memory as it was. Whatever it throws for a whole
    number [keyLen], it is never the length error of [generateKeyString] (the
    bounds 6..32 lie within 4..64), and the memory is unchanged. *)
Theorem Locker_storeItem_checks (this : VarLocker) (item : jstring) (keyLen : Z)
    (fuel : nat) (ρ : entropy) (drawn : nat) (μ : memory) :
  (item = [] →
     Locker.storeItem this item keyLen fuel ρ drawn μ =
       Some (inl ItemMustBeNonEmpty, drawn, μ)) ∧
  (item ≠ [] → ¬ (6 ≤ keyLen ≤ 32)%Z →
     Locker.storeItem this item keyLen fuel ρ drawn μ =
       Some (inl KeyLenOutOfBounds, drawn, μ)) ∧
  (∀ e drawn' μ',
     Locker.storeItem this item keyLen fuel ρ drawn μ = Some (inl e, drawn', μ') →
     e ≠ LenOutOfBounds ∧ μ' = μ).
Proof.
  unfold Locker.storeItem. rewrite keyLen_test. split; [|split].
  - intros ->. done.
  - intros Hitem Hlen. by rewrite bool_decide_false, bool_decide_true.
  - intros e drawn' μ'. case_bool_decide; [by intros [= <- <- <-]|].
    case_bool_decide as Hlen; [by intros [= <- <- <-]|].
    rewrite generateKeyString_in_bounds by lia.
    destruct (Locker.retryWhileInUse _ _ _ _ _ _ _) as [[[[e1|k] d1] μ1]|] eqn:Hloop;
      [| |done].
    + intros [= <- <- <-].
      by destruct (retryWhileInUse_throws _ _ keyLen _ _ _ _ _ _ _ ltac:(lia) Hloop)
        as [-> [e' ->]].
    + destruct (retryWhileInUse_returns (λ _, True) _ _ keyLen _ _ _ _ _ _ _
                  ltac:(lia) I (λ _, I) Hloop) as (-> & _ & _).
      destruct (SecureMap.storeItem (store this) k item μ) as [[p|e2] μ2] eqn:Hst;
        [done|].
      apply SecureMap_storeItem_memory in Hst as ->. by intros [= <- <- <-].
Qed.

Lemma Locker_storeItem_checks_witness :
  str "secret" ≠ [] ∧ ¬ (6 ≤ 5 ≤ 32)%Z ∧
  Locker.storeItem commonLocker (str "secret") 5 0 zeros 0 (mem acquired) =
    Some (inl KeyLenOutOfBounds, 0%nat, mem acquired).
Proof.
  assert (H1 : str "secret" ≠ []) by discriminate.
  assert (H2 : ¬ (6 ≤ 5 ≤ 32)%Z) by lia.
  exact (conj H1 (conj H2 (proj1 (proj2
    (Locker_storeItem_checks commonLocker (str "secret") 5 0 zeros 0 (mem acquired)))
    H1 H2))).
Defined.

(** X3: when [VarLocker.storeItem] returns a promise and that promise
    resolves, the value it resolves with is a key that was not in use when
    the call was made, has [keyLen] code units with [6 <= keyLen <= 32],
    passes the key check (and is made of letters 'a'..'z' when the draws lie
    in 0..25), and is in use once the promise has resolved. The synchronous
    part of the call changes no memory. *)
Theorem Locker_storeItem_returns_unused_key (P : Provider) (this : VarLocker)
    (item : jstring) (keyLen : Z) (fuel : nat) (ρ : entropy) (drawn drawn' : nat)
    (μ μ' : memory) (p : promise jstring) (κ : keychain P) (key : jstring) :
  Locker.storeItem this item keyLen fuel ρ drawn μ = Some (inr p, drawn', μ') →
  settled (run P p κ μ') = Fulfilled key →
  μ' = μ ∧
  Locker.keyInUse this key μ = (Return false, μ) ∧
  Z.of_nat (length key) = keyLen ∧ (6 ≤ keyLen ≤ 32)%Z ∧
  _keyCheck key = true ∧
  (in_range ρ → lowercase key) ∧
  (Locker.keyInUse this key (mem_after (run P p κ μ'))).1 = Return true.
Proof.
  unfold Locker.storeItem. rewrite keyLen_test.
  case_bool_decide; [done|]. case_bool_decide as Hlen; [done|].
  rewrite generateKeyString_in_bounds by lia.
  destruct (Locker.retryWhileInUse _ _ _ _ _ _ _) as [[[[e1|k] d1] μ1]|] eqn:Hloop;
    [done| |done].
  destruct (retryWhileInUse_returns
              (λ k, length k = Z.to_nat keyLen ∧ (in_range ρ → lowercase k))
              _ _ keyLen _ _ _ _ _ _ _ ltac:(lia) ltac:(split; [apply length_letters|
                intros Hρ; apply lowercase_letters; intros; apply Hρ])
              ltac:(intros d; split; [apply length_letters|
                intros Hρ; apply lowercase_letters; intros; apply Hρ]) Hloop)
    as (-> & Hfree & Hk & Hlow).
  unfold SecureMap.storeItem.
  destruct (_keyCheck k) eqn:Hcheck; simpl; [|done].
  destruct (Map.has (tag (store this)) (_staticTagMap μ)) eqn:Hhas; simpl; [|done].
  destruct (Map.hasIn (tag (store this)) k (_staticTagMap μ)) eqn:Hin; simpl; [done|].
  intros [= <- <- <-]. simpl.
  destruct (perform P (encrypt item (fullTag (store this))) κ) as [[enc|e] κ1];
    simpl; [|done].
  intros [= <-]. split; [done|]. split; [done|]. split; [lia|]. split; [done|].
  split; [done|]. split; [done|].
  unfold Locker.keyInUse, SecureMap.hasItem, Map.has, Map.hasIn, Map.setIn. simpl.
  rewrite !lookup_insert_eq. simpl. unfold Map.has. rewrite lookup_insert_eq. done.
Qed.

Lemma Locker_storeItem_returns_unused_key_witness :
  let h := fullTag (store commonLocker) in
  let p : promise jstring :=
    native (encrypt (str "secret") h)
    >>=then (λ encVal μ,
      (Return (resolve (store commonLocker)),
       assignTagMap (Map.setIn LOCKER_TAG (str "aaaaaa") encVal (_staticTagMap μ)) μ))
    >>=then (λ _, ret (resolve (str "aaaaaa"))) in
  Locker.storeItem commonLocker (str "secret") 6 0 zeros 0 (mem acquired) =
    Some (inr p, 6%nat, mem acquired) ∧
  settled (run deviceKeychain p (chain acquired) (mem acquired)) =
    Fulfilled (str "aaaaaa") ∧
  Locker.keyInUse commonLocker (str "aaaaaa") (mem acquired) =
    (Return false, mem acquired).
Proof.
  intros h p.
  assert (H1 : Locker.storeItem commonLocker (str "secret") 6 0 zeros 0 (mem acquired) =
                 Some (inr p, 6%nat, mem acquired)) by reflexivity.
  assert (H2 : settled (run deviceKeychain p (chain acquired) (mem acquired)) =
                 Fulfilled (str "aaaaaa")) by reflexivity.
  exact (conj H1 (conj H2 (proj1 (proj2
    (Locker_storeItem_returns_unused_key deviceKeychain commonLocker (str "secret") 6 0
       zeros 0 6 (mem acquired) (mem acquired) p (chain acquired) (str "aaaaaa")
       H1 H2))))).
Defined.

(** X4: [VarLocker.storeItem] keeps the first generated key that is not in
    use. If the first [n] candidates are keys of the locker's collection and
    candidate [n] is not, the call returns after [(n + 1) * keyLen] draws
    with the memory unchanged; its promise makes the one request [encrypt],
    and resolves with candidate [n], the ciphertext recorded under it, or
    passes the keychain's rejection on with the memory unchanged. *)
Theorem Locker_storeItem_finds_first_free_key (P : Provider) (this : VarLocker)
    (item : jstring) (keyLen : Z) (fuel : nat) (ρ : entropy) (drawn : nat)
    (μ : memory) (κ : keychain P) (c : gmap jstring jstring) (n : nat) :
  item ≠ [] → (6 ≤ keyLen ≤ 32)%Z → in_range ρ →
  _staticTagMap μ !! Locker.id this = Some c →
  (∀ j, (j < n)%nat → is_Some (c !! candidate keyLen ρ drawn j)) →
  c !! candidate keyLen ρ drawn n = None →
  (n ≤ fuel)%nat →
  let key := candidate keyLen ρ drawn n in
  let h := fullTag (store this) in
  ∃ p,
    Locker.storeItem this item keyLen fuel ρ drawn μ =
      Some (inr p, (drawn + S n * Z.to_nat keyLen)%nat, μ) ∧
    let r := run P p κ μ in
    requests r = [(Request (encrypt item h), μ)] ∧
    chain_after r = (perform P (encrypt item h) κ).2 ∧
    match (perform P (encrypt item h) κ).1 with
    | Fulfilled enc =>
        settled r = Fulfilled key ∧
        mem_after r =
          assignTagMap (<[Locker.id this := <[key := enc]> c]> (_staticTagMap μ)) μ
    | Rejected e => settled r = Rejected e ∧ mem_after r = μ
    end.
Proof.
  intros Hitem Hlen Hρ Hc Hused Hfree Hfuel key h. subst key h.
  unfold Locker.storeItem. rewrite keyLen_test.
  rewrite bool_decide_false by done. rewrite bool_decide_false by (by intros []).
  rewrite generateKeyString_in_bounds by lia. rewrite <- candidate_0.
  replace (drawn + Z.to_nat keyLen)%nat with (drawn + 1 * Z.to_nat keyLen)%nat by lia.
  rewrite (retryWhileInUse_finds fuel this keyLen ρ drawn μ c 0 n) by
    (try done; try lia; intros; apply Hused; lia).
  replace (0 + n)%nat with n by lia.
  unfold SecureMap.storeItem. rewrite candidate_keyCheck by (done || lia).
  unfold Map.has, Map.hasIn, Locker.id in *. rewrite Hc. simpl.
  unfold Map.has. rewrite Hfree. simpl.
  eexists. split; [reflexivity|]. simpl.
  destruct (perform P (encrypt item (fullTag (store this))) κ) as [[enc|e] κ1];
    simpl; [|done].
  repeat split. unfold Map.setIn. by rewrite Hc.
Qed.

Lemma Locker_storeItem_finds_first_free_key_witness :
  let c : gmap jstring jstring := {[str "aaaaaa" := str "x"]} in
  str "secret" ≠ [] ∧ (6 ≤ 6 ≤ 32)%Z ∧ in_range sixThenOnes ∧
  _staticTagMap crowded !! Locker.id commonLocker = Some c ∧
  (∀ j, (j < 1)%nat → is_Some (c !! candidate 6 sixThenOnes 0 j)) ∧
  c !! candidate 6 sixThenOnes 0 1 = None ∧
  (1 ≤ 1)%nat ∧
  ∃ p, Locker.storeItem commonLocker (str "secret") 6 1 sixThenOnes 0 crowded =
         Some (inr p, (0 + 2 * Z.to_nat 6)%nat, crowded) ∧
       requests (run brokenKeychain p () crowded) =
         [(Request (encrypt (str "secret") (fullTag (store commonLocker))), crowded)].
Proof.
  intros c.
  assert (H1 : str "secret" ≠ []) by discriminate.
  assert (H2 : (6 ≤ 6 ≤ 32)%Z) by lia.
  assert (H4 : _staticTagMap crowded !! Locker.id commonLocker = Some c)
    by reflexivity.
  assert (H5 : ∀ j, (j < 1)%nat → is_Some (c !! candidate 6 sixThenOnes 0 j)).
  { intros j Hj. assert (j = 0)%nat as -> by lia. vm_compute. eauto. }
  assert (H6 : c !! candidate 6 sixThenOnes 0 1 = None) by (vm_compute; reflexivity).
  assert (H7 : (1 ≤ 1)%nat) by lia.
  destruct (Locker_storeItem_finds_first_free_key brokenKeychain commonLocker
              (str "secret") 6 1 sixThenOnes 0 crowded () c 1
              H1 H2 sixThenOnes_in_range H4 H5 H6 H7) as (p & Hp & Hreq & _).
  exact (conj H1 (conj H2 (conj sixThenOnes_in_range (conj H4 (conj H5 (conj H6
    (conj H7 (ex_intro _ p (conj Hp Hreq))))))))).
Defined.

(** X5: the retry loop of [VarLocker.storeItem] has no bound: if every key
    that [generateKeyString] produces is in use, the call does not return,
    however many times the loop body is allowed to run. *)
Theorem Locker_storeItem_spins (this : VarLocker) (item : jstring) (keyLen : Z)
    (ρ : entropy) (drawn : nat) (μ : memory) (c : gmap jstring jstring) :
  item ≠ [] → (6 ≤ keyLen ≤ 32)%Z →
  _staticTagMap μ !! Locker.id this = Some c →
  (∀ j, is_Some (c !! candidate keyLen ρ drawn j)) →
  ∀ fuel, Locker.storeItem this item keyLen fuel ρ drawn μ = None.
Proof.
  intros Hitem Hlen Hc Hused fuel.
  unfold Locker.storeItem. rewrite keyLen_test.
  rewrite bool_decide_false by done. rewrite bool_decide_false by (by intros []).
  rewrite generateKeyString_in_bounds by lia. rewrite <- candidate_0.
  replace (drawn + Z.to_nat keyLen)%nat with (drawn + 1 * Z.to_nat keyLen)%nat by lia.
  by rewrite (retryWhileInUse_spins fuel this keyLen ρ drawn μ c 0) by (done || lia).
Qed.

Lemma Locker_storeItem_spins_witness :
  let c : gmap jstring jstring := {[str "aaaaaa" := str "x"]} in
  str "secret" ≠ [] ∧ (6 ≤ 6 ≤ 32)%Z ∧
  _staticTagMap crowded !! Locker.id commonLocker = Some c ∧
  (∀ j, is_Some (c !! candidate 6 zeros 0 j)) ∧
  Locker.storeItem commonLocker (str "secret") 6 1000 zeros 0 crowded = None.
Proof.
  intros c.
  assert (H1 : str "secret" ≠ []) by discriminate.
  assert (H2 : (6 ≤ 6 ≤ 32)%Z) by lia.
  assert (H3 : _staticTagMap crowded !! Locker.id commonLocker = Some c)
    by reflexivity.
  assert (H4 : ∀ j, is_Some (c !! candidate 6 zeros 0 j)).
  { intros j. exists (str "x"). reflexivity. }
  exact (conj H1 (conj H2 (conj H3 (conj H4
    (Locker_storeItem_spins commonLocker (str "secret") 6 zeros 0 crowded c
       H1 H2 H3 H4 1000%nat))))).
Defined.

(** X6: on a locker whose collection is gone (evicted or disposed),
    [VarLocker.storeItem] with valid arguments throws the store's 'backing
    map missing' error synchronously, out of [keyInUse], after one key has
    been drawn; nothing is stored and no promise is returned. *)
Theorem Locker_storeItem_on_disposed_store (this : VarLocker) (item : jstring)
    (keyLen : Z) (fuel : nat) (ρ : entropy) (drawn : nat) (μ : memory) :
  item ≠ [] → (6 ≤ keyLen ≤ 32)%Z →
  _staticTagMap μ !! Locker.id this = None →
  Locker.storeItem this item keyLen fuel ρ drawn μ =
    Some (inl (StoreError (BackingMapMissing (Locker.id this))),
          (drawn + Z.to_nat keyLen)%nat, μ).
Proof.
  intros Hitem Hlen Hc.
  unfold Locker.storeItem. rewrite keyLen_test.
  rewrite bool_decide_false by done. rewrite bool_decide_false by (by intros []).
  rewrite generateKeyString_in_bounds by lia.
  assert (Huse : ∀ k, Locker.keyInUse this k μ =
                   (Throw (BackingMapMissing (Locker.id this)), μ)).
  { intros k. unfold Locker.keyInUse, SecureMap.hasItem, Map.has, Locker.id in *.
    by rewrite Hc. }
  by destruct fuel; simpl; rewrite Huse.
Qed.

Lemma Locker_storeItem_on_disposed_store_witness :
  str "secret" ≠ [] ∧ (6 ≤ 6 ≤ 32)%Z ∧
  _staticTagMap freshMemory !! Locker.id commonLocker = None ∧
  Locker.storeItem commonLocker (str "secret") 6 3 zeros 0 freshMemory =
    Some (inl (StoreError (BackingMapMissing (Locker.id commonLocker))),
          (0 + Z.to_nat 6)%nat, freshMemory).
Proof.
  assert (H1 : str "secret" ≠ []) by discriminate.
  assert (H2 : (6 ≤ 6 ≤ 32)%Z) by lia.
  assert (H3 : _staticTagMap freshMemory !! Locker.id commonLocker = None)
    by reflexivity.
  exact (conj H1 (conj H2 (conj H3
    (Locker_storeItem_on_disposed_store commonLocker (str "secret") 6 3 zeros 0
       freshMemory H1 H2 H3)))).
Defined.

(** X7: a locker round trip. If [VarLocker.storeItem(item)] returns a
    promise and the keychain's [decrypt] undoes its [encrypt] of [item],
    the promise resolves with a key, [VarLocker.retrieveItem(key)] run next
    resolves with [item], after which the key is no longer in use and a
    second [retrieveItem(key)] is rejected with 'key not in map' without any
    request to the keychain. *)
Theorem Locker_storeItem_then_retrieveItem (P : Provider) (this : VarLocker)
    (item : jstring) (keyLen : Z) (fuel : nat) (ρ : entropy) (drawn drawn' : nat)
    (μ μ' : memory) (p : promise jstring) (κ : keychain P) :
  Locker.storeItem this item keyLen fuel ρ drawn μ = Some (inr p, drawn', μ') →
  decrypt_inverts_encrypt P κ (fullTag (store this)) item →
  ∃ key,
    let r1 := run P p κ μ' in
    let r2 := invoke P (Locker.retrieveItem this key) (chain_after r1) (mem_after r1) in
    settled r1 = Fulfilled key ∧
    settled r2 = Fulfilled item ∧
    Locker.keyInUse this key (mem_after r2) = (Return false, mem_after r2) ∧
    ∀ κ', invoke P (Locker.retrieveItem this key) κ' (mem_after r2) =
            Ran (Rejected (KeyNotInMap key)) κ' (mem_after r2) [].
Proof.
  intros Hstore (enc & κ1 & κ2 & Henc & Hdec). revert Hstore.
  unfold Locker.storeItem. rewrite keyLen_test.
  case_bool_decide; [done|]. case_bool_decide as Hlen; [done|].
  rewrite generateKeyString_in_bounds by lia.
  destruct (Locker.retryWhileInUse _ _ _ _ _ _ _) as [[[[e1|k] d1] μ1]|] eqn:Hloop;
    [done| |done].
  unfold SecureMap.storeItem.
  destruct (_keyCheck k) eqn:Hcheck; simpl; [|done].
  unfold Map.has at 1.
  destruct (_staticTagMap μ1 !! tag (store this)) as [c|] eqn:Hc; simpl; [|done].
  unfold Map.hasIn. rewrite Hc. unfold Map.has.
  destruct (c !! k) as [old|] eqn:Hk; simpl; [done|].
  intros [= <- <- <-]. exists k. simpl. rewrite Henc. simpl.
  unfold Locker.retrieveItem, invoke, SecureMap.retrieveItem, Locker.keyInUse,
    SecureMap.hasItem. rewrite Hcheck. simpl.
  unfold Map.has, Map.hasIn, Map.getIn, Map.setIn, Map.deleteIn. simpl.
  rewrite Hc. simpl. rewrite !lookup_insert_eq. simpl. unfold Map.has.
  rewrite !lookup_insert_eq. simpl. rewrite Hdec. simpl.
  repeat (progress (rewrite ?lookup_insert_eq, ?lookup_delete_eq; simpl)). done.
Qed.

Lemma Locker_storeItem_then_retrieveItem_witness :
  let h := fullTag (store commonLocker) in
  let p : promise jstring :=
    native (encrypt (str "secret") h)
    >>=then (λ encVal μ,
      (Return (resolve (store commonLocker)),
       assignTagMap (Map.setIn LOCKER_TAG (str "aaaaaa") encVal (_staticTagMap μ)) μ))
    >>=then (λ _, ret (resolve (str "aaaaaa"))) in
  Locker.storeItem commonLocker (str "secret") 6 0 zeros 0 (mem acquired) =
    Some (inr p, 6%nat, mem acquired) ∧
  decrypt_inverts_encrypt deviceKeychain (chain acquired) h (str "secret") ∧
  ∃ key,
    settled (run deviceKeychain p (chain acquired) (mem acquired)) = Fulfilled key.
Proof.
  intros h p.
  assert (H1 : Locker.storeItem commonLocker (str "secret") 6 0 zeros 0 (mem acquired) =
                 Some (inr p, 6%nat, mem acquired)) by reflexivity.
  assert (H2 : decrypt_inverts_encrypt deviceKeychain (chain acquired) h (str "secret")).
  { exists (reverse (str "secret")), (chain acquired), (chain acquired).
    split; vm_compute; reflexivity. }
  destruct (Locker_storeItem_then_retrieveItem deviceKeychain commonLocker
              (str "secret") 6 0 zeros 0 6 (mem acquired) (mem acquired) p
              (chain acquired) H1 H2) as (key & Hkey & _).
  exact (conj H1 (conj H2 (ex_intro _ key Hkey))).
Defined.

(** ** One entry at a time *)

(** X8: [_SecureMap.storeItem] records the entry only after [encrypt] has
    resolved. For a checked key absent from a live collection, [encrypt] is
    the only request and is served with the memory as before the call; its
    resolution stores the ciphertext under the key and resolves with the
    handle, its rejection is passed on with the memory unchanged.
    Conversely, a resolved call resolved with the handle and stored what
    [encrypt] returned under a key that was absent; a failed call leaves the
    memory unchanged. *)
Theorem storeItem_records_after_encrypt (P : Provider) (this : _SecureMap)
    (key value : jstring) (κ : keychain P) (μ : memory) :
  let r := invoke P (SecureMap.storeItem this key value) κ μ in
  (∀ c,
     _keyCheck key = true →
     _staticTagMap μ !! tag this = Some c → c !! key = None →
     requests r = [(Request (encrypt value (fullTag this)), μ)] ∧
     chain_after r = (perform P (encrypt value (fullTag this)) κ).2 ∧
     match (perform P (encrypt value (fullTag this)) κ).1 with
     | Fulfilled enc =>
         settled r = Fulfilled this ∧
         mem_after r = assignTagMap (<[tag this := <[key := enc]> c]> (_staticTagMap μ)) μ
     | Rejected e => settled r = Rejected e ∧ mem_after r = μ
     end) ∧
  match settled r with
  | Fulfilled sm =>
      sm = this ∧
      ∃ c enc κ1,
        _staticTagMap μ !! tag this = Some c ∧ c !! key = None ∧
        perform P (encrypt value (fullTag this)) κ = (Fulfilled enc, κ1) ∧
        _staticTagMap (mem_after r) !! tag this = Some (<[key := enc]> c)
  | Rejected e => mem_after r = μ
  end.
Proof.
  intros r. subst r. unfold invoke, SecureMap.storeItem. split.
  - intros c Hkey Ht Hk. rewrite Hkey. simpl.
    unfold Map.has, Map.hasIn, Map.setIn. rewrite Ht. simpl.
    unfold Map.has. rewrite Hk. simpl.
    destruct (perform P (encrypt value (fullTag this)) κ) as [[enc|e] κ']; simpl;
      [|done].
    by rewrite Ht.
  - destruct (_keyCheck key); simpl; [|done].
    unfold Map.has, Map.hasIn, Map.setIn.
    destruct (_staticTagMap μ !! tag this) as [c|] eqn:Ht; simpl; [|done].
    unfold Map.has.
    destruct (c !! key) as [old|] eqn:Hk; simpl; [done|].
    destruct (perform P (encrypt value (fullTag this)) κ) as [[enc|e] κ'] eqn:He;
      simpl; [|done].
    split; [done|]. exists c, enc, κ'. rewrite Ht. simpl.
    by rewrite lookup_insert_eq.
Qed.

Lemma storeItem_records_after_encrypt_witness :
  let this := new_SecureMap LOCKER_TAG in
  let r := invoke brokenKeychain (SecureMap.storeItem this (str "k") (str "v"))
                  () (mem acquired) in
  _keyCheck (str "k") = true ∧
  _staticTagMap (mem acquired) !! tag this = Some ∅ ∧
  (∅ : gmap jstring jstring) !! str "k" = None ∧
  settled r = Rejected (NativeError (str "keychain unavailable")) ∧
  mem_after r = mem acquired.
Proof.
  intros this r.
  assert (H1 : _keyCheck (str "k") = true) by (vm_compute; reflexivity).
  assert (H2 : _staticTagMap (mem acquired) !! tag this = Some ∅)
    by (vm_compute; reflexivity).
  assert (H3 : (∅ : gmap jstring jstring) !! str "k" = None) by reflexivity.
  exact (conj H1 (conj H2 (conj H3 (proj2 (proj2 (proj1
    (storeItem_records_after_encrypt brokenKeychain this (str "k") (str "v") ()
       (mem acquired)) ∅ H1 H2 H3)))))).
Defined.

Lemma same_other_keys_refl t k μ : same_other_keys t k μ μ.
Proof. done. Qed.

Lemma same_other_keys_trans t k μ1 μ2 μ3 :
  same_other_keys t k μ1 μ2 → same_other_keys t k μ2 μ3 → same_other_keys t k μ1 μ3.
Proof. intros H1 H2 k' Hk. by rewrite H2, H1. Qed.

Lemma same_other_keys_setIn t k v μ :
  same_other_keys t k μ (assignTagMap (Map.setIn t k v (_staticTagMap μ)) μ).
Proof.
  intros k' Hk. simpl. unfold Map.setIn. rewrite lookup_insert_eq. simpl.
  rewrite lookup_insert_ne by done.
  destruct (_staticTagMap μ !! t); [reflexivity|]. apply lookup_empty.
Qed.

Lemma same_other_keys_deleteIn t k μ :
  same_other_keys t k μ (assignTagMap (Map.deleteIn t k (_staticTagMap μ)) μ).
Proof.
  intros k' Hk. simpl. unfold Map.deleteIn.
  destruct (_staticTagMap μ !! t) as [c|] eqn:Hc; [|by rewrite Hc].
  rewrite lookup_insert_eq. simpl. by rewrite lookup_delete_ne.
Qed.

#[local] Hint Resolve same_other_keys_refl same_other_keys_setIn
  same_other_keys_deleteIn : registry.

Lemma invoke_every_job P {A} (Q : memory → memory → Prop) (f : sync (promise A)) κ μ :
  (∀ μ, Q μ μ) → (∀ μ1 μ2 μ3, Q μ1 μ2 → Q μ2 μ3 → Q μ1 μ3) →
  Q μ (f μ).2 →
  (∀ p, (f μ).1 = Return p → every_job Q p) →
  Q μ (mem_after (invoke P f κ μ)).
Proof.
  intros Hrefl Htrans H1 H2. unfold invoke.
  destruct (f μ) as [[p|e] μ']; simpl in *; [|done].
  eapply Htrans; [exact H1|]. apply every_job_run; auto.
Qed.

(** X9: within their own tag, [storeItem(key, ...)] and
    [retrieveItem(key, ...)] touch no other entry: in the synchronous part,
    in every callback they queue (whatever the memory is when it runs), and
    over a whole run, every other key of the tag's collection keeps its
    value, or stays absent. *)
Theorem handle_operations_touch_only_their_key (P : Provider) (this : _SecureMap)
    (key value : jstring) (remove : bool) (κ : keychain P) (μ : memory) :
  let only_key := same_other_keys (tag this) key in
  (only_key μ (SecureMap.storeItem this key value μ).2 ∧
   ∀ p, (SecureMap.storeItem this key value μ).1 = Return p → every_job only_key p) ∧
  (only_key μ (SecureMap.retrieveItem this key remove μ).2 ∧
   ∀ p, (SecureMap.retrieveItem this key remove μ).1 = Return p →
        every_job only_key p) ∧
  only_key μ (mem_after (invoke P (SecureMap.storeItem this key value) κ μ)) ∧
  only_key μ (mem_after (invoke P (SecureMap.retrieveItem this key remove) κ μ)).
Proof.
  intros only_key. subst only_key.
  assert (Hs : same_other_keys (tag this) key μ (SecureMap.storeItem this key value μ).2 ∧
    ∀ p, (SecureMap.storeItem this key value μ).1 = Return p →
         every_job (same_other_keys (tag this) key) p).
  { unfold SecureMap.storeItem.
    repeat (case_match; simpl; try done); split; try done; try intros p [= <-];
      jobs; auto with registry. }
  assert (Hr : same_other_keys (tag this) key μ
                 (SecureMap.retrieveItem this key remove μ).2 ∧
    ∀ p, (SecureMap.retrieveItem this key remove μ).1 = Return p →
         every_job (same_other_keys (tag this) key) p).
  { unfold SecureMap.retrieveItem.
    repeat (case_match; simpl; try done); split; try done; try intros p [= <-];
      jobs; auto with registry. }
  split; [done|]. split; [done|].
  split; apply invoke_every_job;
    try apply same_other_keys_refl; try apply same_other_keys_trans;
    try apply Hs; try apply Hr.
Qed.

Lemma handle_operations_touch_only_their_key_witness :
  let this := new_SecureMap LOCKER_TAG in
  let p := native (encrypt (str "v") (fullTag this))
           >>=then (λ encVal μ,
             (Return (resolve this),
              assignTagMap (Map.setIn (tag this) (str "j") encVal (_staticTagMap μ)) μ)) in
  (SecureMap.storeItem this (str "j") (str "v") (mem stored)).1 = Return p ∧
  every_job (same_other_keys LOCKER_TAG (str "j")) p.
Proof.
  intros this p.
  assert (Hp : (SecureMap.storeItem this (str "j") (str "v") (mem stored)).1 = Return p)
    by reflexivity.
  exact (conj Hp (proj2 (proj1
    (handle_operations_touch_only_their_key deviceKeychain this (str "j") (str "v")
       true (chain stored) (mem stored))) p Hp)).
Defined.

(** ** Size and membership *)

Lemma size_present this μ c :
  _staticTagMap μ !! tag this = Some c →
  SecureMap.size this μ = (Return (size c), μ).
Proof. intros Hc. unfold SecureMap.size, Map.has. by rewrite Hc. Qed.

Lemma size_returns this μ n μ' :
  SecureMap.size this μ = (Return n, μ') →
  ∃ c, _staticTagMap μ !! tag this = Some c ∧ n = size c.
Proof.
  unfold SecureMap.size, Map.has.
  destruct (_staticTagMap μ !! tag this) as [c|]; simpl; [|done].
  intros [= <- _]. eauto.
Qed.

Lemma hasItem_present this key μ c :
  _staticTagMap μ !! tag this = Some c →
  SecureMap.hasItem this key μ = (Return (bool_decide (is_Some (c !! key))), μ).
Proof. intros Hc. unfold SecureMap.hasItem, Map.has, Map.hasIn. by rewrite Hc. Qed.

Lemma invoke_storeItem_resolved P this key value κ μ sm :
  settled (invoke P (SecureMap.storeItem this key value) κ μ) = Fulfilled sm →
  ∃ c enc,
    sm = this ∧ _keyCheck key = true ∧
    _staticTagMap μ !! tag this = Some c ∧ c !! key = None ∧
    perform P (encrypt value (fullTag this)) κ =
      (Fulfilled enc, chain_after (invoke P (SecureMap.storeItem this key value) κ μ)) ∧
    mem_after (invoke P (SecureMap.storeItem this key value) κ μ) =
      assignTagMap (<[tag this := <[key := enc]> c]> (_staticTagMap μ)) μ.
Proof.
  unfold invoke, SecureMap.storeItem.
  destruct (_keyCheck key); simpl; [|done].
  unfold Map.has, Map.hasIn, Map.setIn.
  destruct (_staticTagMap μ !! tag this) as [c|] eqn:Ht; simpl; [|done].
  unfold Map.has.
  destruct (c !! key) as [old|] eqn:Hk; simpl; [done|].
  destruct (perform P (encrypt value (fullTag this)) κ) as [[enc|e] κ'] eqn:He;
    simpl; [|done].
  intros [= <-]. exists c, enc. by rewrite Ht.
Qed.

Lemma invoke_retrieveItem_resolved P this key remove κ μ v :
  settled (invoke P (SecureMap.retrieveItem this key remove) κ μ) = Fulfilled v →
  ∃ c enc,
    _keyCheck key = true ∧
    _staticTagMap μ !! tag this = Some c ∧ c !! key = Some enc ∧
    perform P (decrypt enc (fullTag this)) κ =
      (Fulfilled v, chain_after (invoke P (SecureMap.retrieveItem this key remove) κ μ)) ∧
    mem_after (invoke P (SecureMap.retrieveItem this key remove) κ μ) =
      if remove
      then assignTagMap (<[tag this := delete key c]> (_staticTagMap μ)) μ
      else μ.
Proof.
  unfold invoke, SecureMap.retrieveItem.
  destruct (_keyCheck key); simpl; [|done].
  unfold Map.has, Map.hasIn, Map.getIn, Map.deleteIn.
  destruct (_staticTagMap μ !! tag this) as [c|] eqn:Ht; simpl; [|done].
  unfold Map.has.
  destruct (c !! key) as [enc|] eqn:Hk; simpl; [|done].
  destruct (perform P (decrypt enc (fullTag this)) κ) as [[w|e] κ'] eqn:Hd;
    simpl; [|done].
  intros [= <-]. exists c, enc. rewrite Ht. by destruct remove.
Qed.

(** X10: [size] and [hasItem] follow the entries. A [storeItem] that
    resolves takes [hasItem(key)] from false to true and [size] from [n] to
    [n + 1]; a [retrieveItem(key, true)] that resolves takes [hasItem(key)]
    from true to false and [size] from [n + 1] to [n]; a
    [retrieveItem(key, false)] that resolves changes no memory. *)
Theorem size_and_hasItem_follow_the_entries (P : Provider) (this : _SecureMap)
    (key value : jstring) (κ : keychain P) (μ : memory) :
  (∀ sm, let r := invoke P (SecureMap.storeItem this key value) κ μ in
   settled r = Fulfilled sm →
   ∃ n,
     SecureMap.size this μ = (Return n, μ) ∧
     SecureMap.hasItem this key μ = (Return false, μ) ∧
     SecureMap.size this (mem_after r) = (Return (S n), mem_after r) ∧
     SecureMap.hasItem this key (mem_after r) = (Return true, mem_after r)) ∧
  (∀ v, let r := invoke P (SecureMap.retrieveItem this key true) κ μ in
   settled r = Fulfilled v →
   ∃ n,
     SecureMap.size this μ = (Return (S n), μ) ∧
     SecureMap.hasItem this key μ = (Return true, μ) ∧
     SecureMap.size this (mem_after r) = (Return n, mem_after r) ∧
     SecureMap.hasItem this key (mem_after r) = (Return false, mem_after r)) ∧
  (∀ v, let r := invoke P (SecureMap.retrieveItem this key false) κ μ in
   settled r = Fulfilled v → mem_after r = μ).
Proof.
  split; [|split].
  - intros sm r Hr. subst r.
    destruct (invoke_storeItem_resolved _ _ _ _ _ _ _ Hr)
      as (c & enc & _ & _ & Hc & Hk & _ & ->).
    exists (size c).
    rewrite (size_present _ _ _ Hc), (hasItem_present _ _ _ _ Hc), Hk.
    erewrite size_present, hasItem_present by (simpl; apply lookup_insert_eq).
    rewrite lookup_insert_eq, map_size_insert_None by done.
    repeat split.
  - intros v r Hr. subst r.
    destruct (invoke_retrieveItem_resolved _ _ _ _ _ _ _ Hr)
      as (c & enc & _ & Hc & Hk & _ & ->).
    exists (size (delete key c)).
    rewrite (size_present _ _ _ Hc), (hasItem_present _ _ _ _ Hc), Hk.
    erewrite size_present, hasItem_present by (simpl; apply lookup_insert_eq).
    rewrite lookup_delete_eq.
    rewrite <- (insert_delete_id c key enc Hk) at 1.
    rewrite map_size_insert_None by apply lookup_delete_eq.
    repeat split.
  - intros v r Hr. subst r.
    by destruct (invoke_retrieveItem_resolved _ _ _ _ _ _ _ Hr)
      as (c & enc & _ & _ & _ & _ & ->).
Qed.

Lemma size_and_hasItem_follow_the_entries_witness :
  let this := new_SecureMap LOCKER_TAG in
  let r := invoke deviceKeychain (SecureMap.retrieveItem this (str "k") true)
                  (chain stored) (mem stored) in
  settled r = Fulfilled (str "secret") ∧
  ∃ n, SecureMap.size this (mem stored) = (Return (S n), mem stored) ∧
       SecureMap.hasItem this (str "k") (mem stored) = (Return true, mem stored) ∧
       SecureMap.size this (mem_after r) = (Return n, mem_after r) ∧
       SecureMap.hasItem this (str "k") (mem_after r) = (Return false, mem_after r).
Proof.
  intros this r.
  assert (Hr : settled r = Fulfilled (str "secret")) by (vm_compute; reflexivity).
  exact (conj Hr (proj1 (proj2
    (size_and_hasItem_follow_the_entries deviceKeychain this (str "k") (str "v")
       (chain stored) (mem stored))) (str "secret") Hr)).
Defined.

(** X11: [empty] on a live store returns the handle and leaves the tag with
    a collection of size 0 in which no key is present, every other tag and
    every locker flag being as before; on a store whose collection is gone
    it throws 'backing map missing' and changes nothing. *)
Theorem empty_clears_the_collection (this : _SecureMap) (μ : memory) :
  match _staticTagMap μ !! tag this with
  | Some _ =>
      ∃ μ',
        SecureMap.empty this μ = (Return this, μ') ∧
        SecureMap.size this μ' = (Return 0%nat, μ') ∧
        (∀ key, SecureMap.hasItem this key μ' = (Return false, μ')) ∧
        same_elsewhere (tag this) μ μ'
  | None => SecureMap.empty this μ = (Throw (BackingMapMissing (tag this)), μ)
  end.
Proof.
  unfold SecureMap.empty.
  destruct (_staticTagMap μ !! tag this) as [c|] eqn:Hc; [|done].
  eexists. split; [reflexivity|].
  assert (Hnew : _staticTagMap
            (assignTagMap (Map.set (tag this) (Map.clear c) (_staticTagMap μ)) μ)
            !! tag this = Some ∅) by apply lookup_insert_eq.
  split; [|split].
  - by rewrite (size_present _ _ _ Hnew), map_size_empty.
  - intros key. rewrite (hasItem_present _ _ _ _ Hnew), lookup_empty.
    rewrite bool_decide_false; [done | by intros [? ?]].
  - apply same_elsewhere_insert.
Qed.

(** ** Creation and disposal of a store *)

(** X12: once [disposeKeysForId(id)] has resolved, every handle bound to
    [id] is dead: [size], [empty] and [hasItem] throw 'backing map missing',
    and [storeItem] and [retrieveItem] with a checked key fail with the same
    error, making no request to the keychain and changing no memory. *)
Theorem disposed_store_refuses_its_handles (P : Provider) (id : jstring)
    (κ : keychain P) (μ : memory) :
  let r := invoke P (SecureMapFactory.disposeKeysForId id) κ μ in
  settled r = Fulfilled () →
  ∀ this, tag this = id →
    let gone := BackingMapMissing id in
    SecureMap.size this (mem_after r) = (Throw gone, mem_after r) ∧
    SecureMap.empty this (mem_after r) = (Throw gone, mem_after r) ∧
    (∀ key, SecureMap.hasItem this key (mem_after r) = (Throw gone, mem_after r)) ∧
    (∀ key value κ', _keyCheck key = true →
       invoke P (SecureMap.storeItem this key value) κ' (mem_after r) =
         Ran (Rejected gone) κ' (mem_after r) []) ∧
    (∀ key remove κ', _keyCheck key = true →
       invoke P (SecureMap.retrieveItem this key remove) κ' (mem_after r) =
         Ran (Rejected gone) κ' (mem_after r) []).
Proof.
  intros r Hr this <- gone. subst r gone.
  unfold SecureMapFactory.disposeKeysForId in *.
  destruct (_keyCheck (tag this)) eqn:Hid.
  2: { by rewrite invoke_disposeKeysForId_unchecked in Hr. }
  rewrite invoke_disposeKeysForId in * by done. cbv zeta in *.
  destruct (perform P (getPublicKey (_getInternalId (tag this))) κ)
    as [[[pub|]|e] κ1]; [|done|done].
  destruct (perform P (deletePrivateKey (_getInternalId (tag this))) κ1)
    as [[u|e] κ2]; [|done].
  simpl.
  assert (Hgone : delete (tag this) (_staticTagMap μ) !! tag this = None)
    by apply lookup_delete_eq.
  unfold SecureMap.size, SecureMap.empty, SecureMap.hasItem, invoke,
    SecureMap.storeItem, SecureMap.retrieveItem, Map.has. simpl.
  rewrite Hgone. simpl. repeat split; intros; by rewrite ?H.
Qed.

Lemma disposed_store_refuses_its_handles_witness :
  let this := new_SecureMap LOCKER_TAG in
  let r := invoke deviceKeychain (SecureMapFactory.disposeKeysForId LOCKER_TAG)
                  (chain stored) (mem stored) in
  settled r = Fulfilled () ∧ tag this = LOCKER_TAG ∧
  SecureMap.size this (mem_after r) =
    (Throw (BackingMapMissing LOCKER_TAG), mem_after r).
Proof.
  intros this r.
  assert (Hr : settled r = Fulfilled ()) by (vm_compute; reflexivity).
  assert (Ht : tag this = LOCKER_TAG) by reflexivity.
  exact (conj Hr (conj Ht (proj1
    (disposed_store_refuses_its_handles deviceKeychain LOCKER_TAG (chain stored)
       (mem stored) Hr this Ht)))).
Defined.

(** X13: with any keychain, [getMapForId(id)] changes the memory in one way
    only. If it resolves, it resolves with a handle bound to [id], [id]
    passes the key check, the collection of [id] is the one it had (the
    empty one if it had none) and every other tag and locker flag is as
    before; if it is rejected, the memory is unchanged. *)
Theorem getMapForId_adds_one_collection_or_nothing (P : Provider) (id : jstring)
    (κ : keychain P) (μ : memory) :
  let r := run P (SecureMapFactory.getMapForId id) κ μ in
  match settled r with
  | Fulfilled sm =>
      sm = new_SecureMap id ∧ _keyCheck id = true ∧
      mem_after r = ensured id μ ∧
      same_elsewhere id μ (mem_after r) ∧
      _staticTagMap (mem_after r) !! id = Some (default ∅ (_staticTagMap μ !! id))
  | Rejected e => mem_after r = μ
  end.
Proof.
  intros r. subst r. unfold SecureMapFactory.getMapForId.
  destruct (_keyCheck id) eqn:Hid.
  2: { by rewrite run_getMapForId_unchecked. }
  rewrite run_getMapForId by done. cbv zeta.
  assert (Hens : same_elsewhere id μ (ensured id μ) ∧
     _staticTagMap (ensured id μ) !! id = Some (default ∅ (_staticTagMap μ !! id))).
  { unfold ensured, Map.has.
    destruct (_staticTagMap μ !! id) as [c|] eqn:Hc.
    - rewrite bool_decide_true by eauto. by rewrite Hc.
    - rewrite bool_decide_false by (by intros [? ?]).
      split; [apply same_elsewhere_insert | apply lookup_insert_eq]. }
  destruct (perform P (getPublicKey (_getInternalId id)) κ) as [[[pub|]|e] κ1];
    simpl; [by destruct Hens| |done].
  destruct (perform P (generate (_getInternalId id)) κ1) as [[u|e] κ2]; simpl;
    [by destruct Hens|done].
Qed.

(** X14: [disposeKeysForId(id)] for a checked [id] whose key pair the
    keychain does not hold is rejected with 'keys already disposed' (a
    NotFound error) after the single request [getPublicKey], with no
    [deletePrivateKey] attempted; and whenever [disposeKeysForId] fails, for
    whatever reason, the memory is unchanged. *)
Theorem disposeKeysForId_without_keypair (P : Provider) (id : jstring)
    (κ : keychain P) (μ : memory) :
  let r := invoke P (SecureMapFactory.disposeKeysForId id) κ μ in
  (_keyCheck id = true →
   (perform P (getPublicKey (_getInternalId id)) κ).1 = Fulfilled None →
   settled r = Rejected (KeysAlreadyDisposed id) ∧
   kindOf (KeysAlreadyDisposed id) = NotFound ∧
   requests r = [(Request (getPublicKey (_getInternalId id)), μ)]) ∧
  (∀ e, settled r = Rejected e → mem_after r = μ).
Proof.
  intros r. subst r. unfold SecureMapFactory.disposeKeysForId.
  destruct (_keyCheck id) eqn:Hid.
  2: { by rewrite invoke_disposeKeysForId_unchecked. }
  rewrite invoke_disposeKeysForId by done. cbv zeta.
  destruct (perform P (getPublicKey (_getInternalId id)) κ) as [[[pub|]|e] κ1];
    simpl; [|done|done].
  split; [done|].
  by destruct (perform P (deletePrivateKey (_getInternalId id)) κ1) as [[u|e] κ2].
Qed.

Lemma disposeKeysForId_without_keypair_witness :
  let h := _getInternalId LOCKER_TAG in
  let r := invoke deviceKeychain (SecureMapFactory.disposeKeysForId LOCKER_TAG)
                  (chain boot) crowded in
  _keyCheck LOCKER_TAG = true ∧
  (perform deviceKeychain (getPublicKey h) (chain boot)).1 = Fulfilled None ∧
  settled r = Rejected (KeysAlreadyDisposed LOCKER_TAG) ∧
  kindOf (KeysAlreadyDisposed LOCKER_TAG) = NotFound ∧
  requests r = [(Request (getPublicKey h), crowded)].
Proof.
  intros h r.
  assert (H1 : _keyCheck LOCKER_TAG = true) by (vm_compute; reflexivity).
  assert (H2 : (perform deviceKeychain (getPublicKey h) (chain boot)).1 = Fulfilled None)
    by reflexivity.
  exact (conj H1 (conj H2 (proj1
    (disposeKeysForId_without_keypair deviceKeychain LOCKER_TAG (chain boot) crowded)
    H1 H2))).
Defined.

(** ** Disposal, with a keychain that keeps its contract *)

Section Disposal.
Context (P : Provider) (HP : Lawful P).

Lemma absent_as_answered κ h :
  present P κ h = false → ∃ κ', perform P (getPublicKey h) κ = (Fulfilled None, κ').
Proof using HP.
  unfold present. intros Hp.
  destruct (query_answers P HP h κ) as [pub Hq].
  destruct (perform P (getPublicKey h) κ) as [o κ']. simpl in *. subst o.
  destruct pub; [done|]. eauto.
Qed.

(** X15: a disposed tag can be acquired again and comes back empty. With a
    keychain that keeps its contract, [getMapForId(id)] run after
    [disposeKeysForId(id)] has resolved asks [getPublicKey] and then
    [generate] for a new key pair; if it resolves, the collection of [id]
    is empty, whatever it held before the disposal, and every other tag is
    as it was before the disposal. *)
Theorem disposed_store_is_rebuilt_empty (id : jstring) (κ : keychain P) (μ : memory) :
  let h := _getInternalId id in
  let r1 := invoke P (SecureMapFactory.disposeKeysForId id) κ μ in
  let r2 := run P (SecureMapFactory.getMapForId id) (chain_after r1) (mem_after r1) in
  settled r1 = Fulfilled () →
  requests r2 = [(Request (getPublicKey h), mem_after r1);
                 (Request (generate h), mem_after r1)] ∧
  ∀ sm, settled r2 = Fulfilled sm →
    _staticTagMap (mem_after r2) !! id = Some ∅ ∧
    same_elsewhere id μ (mem_after r2).
Proof using HP.
  intros h r1 r2. subst h r1 r2.
  unfold SecureMapFactory.getMapForId, SecureMapFactory.disposeKeysForId.
  destruct (_keyCheck id) eqn:Hid.
  2: { by rewrite invoke_disposeKeysForId_unchecked. }
  rewrite run_getMapForId by done.
  rewrite invoke_disposeKeysForId by done. cbv zeta.
  destruct (perform P (getPublicKey (_getInternalId id)) κ) as [[[pub|]|e] κ1];
    cbn [settled chain_after mem_after]; [|done|done].
  destruct (perform P (deletePrivateKey (_getInternalId id)) κ1) as [[u|e] κ2] eqn:Hd;
    cbn [settled chain_after mem_after]; [|done].
  intros _.
  destruct (absent_as_answered κ2 (_getInternalId id)
              (delete_removes P HP _ _ _ _ Hd)) as [κ3 ->].
  assert (Hens : _staticTagMap
            (ensured id (assignTagMap (delete id (_staticTagMap μ)) μ)) !! id = Some ∅
          ∧ same_elsewhere id μ
              (ensured id (assignTagMap (delete id (_staticTagMap μ)) μ))).
  { unfold ensured, Map.has. simpl. rewrite lookup_delete_eq.
    rewrite bool_decide_false by (by intros [? ?]). simpl.
    split; [apply lookup_insert_eq|]. split; [|done]. intros t' Hne. simpl.
    by rewrite lookup_insert_ne, lookup_delete_ne. }
  by destruct (perform P (generate (_getInternalId id)) κ3) as [[u'|e] κ4].
Qed.

(** X16: two lockers over the same tag share one store. With a keychain that
    keeps its contract, once [evict] of one of them has resolved, the other
    object's [#evicted] flag is still what it was, yet its [keyInUse] throws
    'backing map missing', its [isEvicted] (if the flag was unset) asks the
    keychain once, resolves true and sets the flag, and its own [evict] is
    rejected with 'keys already disposed'. *)
Theorem evicting_one_locker_evicts_its_twins (this twin : VarLocker)
    (κ : keychain P) (μ : memory) :
  Locker.id twin = Locker.id this → self twin ≠ self this →
  let r := invoke P (Locker.evict this) κ μ in
  settled r = Fulfilled this →
  Locker.get_evicted twin (mem_after r) = Locker.get_evicted twin μ ∧
  (∀ key, Locker.keyInUse twin key (mem_after r) =
            (Throw (BackingMapMissing (Locker.id twin)), mem_after r)) ∧
  (Locker.get_evicted twin μ = false →
   let q := invoke P (Locker.isEvicted twin) (chain_after r) (mem_after r) in
   settled q = Fulfilled true ∧
   requests q = [(Request (getPublicKey (_getInternalId (Locker.id twin))), mem_after r)] ∧
   Locker.get_evicted twin (mem_after q) = true) ∧
  settled (invoke P (Locker.evict twin) (chain_after r) (mem_after r)) =
    Rejected (KeysAlreadyDisposed (Locker.id twin)).
Proof using HP.
  intros Hid Hself r. subst r. rewrite !invoke_evict. cbv zeta. rewrite Hid.
  destruct (_keyCheck (Locker.id this)) eqn:Hcheck.
  2: { by rewrite invoke_disposeKeysForId_unchecked. }
  rewrite invoke_disposeKeysForId by done. cbv zeta.
  destruct (perform P (getPublicKey (_getInternalId (Locker.id this))) κ)
    as [[[pub|]|e] κ1]; simpl; [|done|done].
  destruct (perform P (deletePrivateKey (_getInternalId (Locker.id this))) κ1)
    as [[u|e] κ2] eqn:Hd; simpl; [|done].
  intros _.
  destruct (absent_as_answered κ2 (_getInternalId (Locker.id this))
              (delete_removes P HP _ _ _ _ Hd)) as [κ3 Hq].
  assert (Hflag : ∀ b, Locker.get_evicted twin
            (Locker.set_evicted this b (assignTagMap (delete (Locker.id this) (_staticTagMap μ)) μ))
            = Locker.get_evicted twin μ).
  { intros b. unfold Locker.get_evicted. simpl. by rewrite lookup_insert_ne. }
  split; [apply Hflag|]. split; [|split].
  - intros key. unfold Locker.keyInUse, SecureMap.hasItem, Map.has. simpl.
    unfold Locker.id in *. rewrite Hid, lookup_delete_eq. done.
  - intros Hfalse. unfold invoke, Locker.isEvicted. rewrite Hflag, Hfalse. simpl.
    rewrite Hid, Hq. simpl. repeat split.
    unfold Locker.get_evicted. simpl. by rewrite lookup_insert_eq.
  - rewrite invoke_disposeKeysForId by done. cbv zeta. by rewrite Hq.
Qed.

End Disposal.

Lemma disposed_store_is_rebuilt_empty_witness :
  let r1 := invoke deviceKeychain (SecureMapFactory.disposeKeysForId LOCKER_TAG)
                   (chain stored) (mem stored) in
  let r2 := run deviceKeychain (SecureMapFactory.getMapForId LOCKER_TAG)
                (chain_after r1) (mem_after r1) in
  settled r1 = Fulfilled () ∧
  settled r2 = Fulfilled (new_SecureMap LOCKER_TAG) ∧
  _staticTagMap (mem_after r2) !! LOCKER_TAG = Some ∅.
Proof.
  intros r1 r2.
  assert (H1 : settled r1 = Fulfilled ()) by (vm_compute; reflexivity).
  assert (H2 : settled r2 = Fulfilled (new_SecureMap LOCKER_TAG))
    by (vm_compute; reflexivity).
  exact (conj H1 (conj H2 (proj1 (proj2
    (disposed_store_is_rebuilt_empty deviceKeychain deviceKeychain_lawful LOCKER_TAG
       (chain stored) (mem stored) H1) _ H2)))).
Defined.

Lemma evicting_one_locker_evicts_its_twins_witness :
  let r := invoke deviceKeychain (Locker.evict commonLocker)
                  (chain stored) (mem stored) in
  Locker.id twinLocker = Locker.id commonLocker ∧
  self twinLocker ≠ self commonLocker ∧
  settled r = Fulfilled commonLocker ∧
  settled (invoke deviceKeychain (Locker.evict twinLocker)
                  (chain_after r) (mem_after r)) =
    Rejected (KeysAlreadyDisposed (Locker.id twinLocker)).
Proof.
  intros r.
  assert (H1 : Locker.id twinLocker = Locker.id commonLocker) by reflexivity.
  assert (H2 : self twinLocker ≠ self commonLocker) by discriminate.
  assert (H3 : settled r = Fulfilled commonLocker) by (vm_compute; reflexivity).
  exact (conj H1 (conj H2 (conj H3 (proj2 (proj2 (proj2
    (evicting_one_locker_evicts_its_twins deviceKeychain deviceKeychain_lawful
       commonLocker twinLocker (chain stored) (mem stored) H1 H2 H3))))))).
Defined.

(** ** [VarLocker.acquire] *)

Lemma run_getMapForId_outcome P id κ μ :
  match settled (run P (_getMapForId id) κ μ) with
  | Fulfilled sm =>
      sm = new_SecureMap id ∧ _keyCheck id = true ∧
      mem_after (run P (_getMapForId id) κ μ) = ensured id μ
  | Rejected e => mem_after (run P (_getMapForId id) κ μ) = μ
  end.
Proof.
  destruct (_keyCheck id) eqn:Hid.
  2: { by rewrite run_getMapForId_unchecked. }
  rewrite run_getMapForId by done. cbv zeta.
  destruct (perform P (getPublicKey (_getInternalId id)) κ) as [[[pub|]|e] κ1];
    simpl; [done| |done].
  by destruct (perform P (generate (_getInternalId id)) κ1) as [[u|e] κ2].
Qed.

Lemma evicted_ensured id μ : evicted (ensured id μ) = evicted μ.
Proof. unfold ensured. by destruct (Map.has _ _). Qed.

(** X17: [VarLocker.acquire(common)] never throws; it draws four letters if
    [common] is false and none otherwise, and its promise behaves as
    [getMapForId] of the acquired tag followed by the constructor: the same
    requests to the keychain, and on resolution a new [VarLocker] object,
    distinct from every existing one, bound to that tag, with its [#evicted]
    flag false and the memory otherwise as [getMapForId] left it; a
    rejection of [getMapForId] is passed on with the memory unchanged. *)
Theorem acquire_is_getMapForId_then_new (P : Provider) (common : bool) (now : N)
    (ρ : entropy) (drawn : nat) (κ : keychain P) (μ : memory) :
  let id := acquiredTag common now ρ drawn in
  ∃ p,
    VarLockerStatic.acquire common now ρ drawn =
      (inr p, if common then drawn else (drawn + 4)%nat) ∧
    let r0 := run P (SecureMapFactory.getMapForId id) κ μ in
    let r := run P p κ μ in
    requests r = requests r0 ∧ chain_after r = chain_after r0 ∧
    match settled r0 with
    | Fulfilled _ =>
        let this := {| self := fresh (dom (evicted μ)); store := new_SecureMap id |} in
        settled r = Fulfilled this ∧
        Locker.id this = id ∧
        (self this ∉ dom (evicted μ)) ∧
        mem_after r = Locker.set_evicted this false (mem_after r0) ∧
        Locker.get_evicted this (mem_after r) = false
    | Rejected e => settled r = Rejected e ∧ mem_after r = μ
    end.
Proof.
  intros id. subst id. unfold VarLockerStatic.acquire, acquiredTag.
  assert (Hgen : generateKeyString 4 ρ drawn = (inr (letters ρ drawn 4), (drawn + 4)%nat))
    by (by rewrite generateKeyString_in_bounds by lia).
  rewrite Hgen.
  set (id := if common then LOCKER_TAG else letters ρ drawn 4 ++ timestamp now).
  set (cb := λ (sm : _SecureMap) (μ0 : memory),
    let (r, μ') := Locker.new sm μ0 in
    (match r with Return this => Return (resolve this) | Throw e => Throw e end, μ')).
  exists (SecureMapFactory.getMapForId id >>=then cb).
  split; [by destruct common|].
  cbv zeta. rewrite run_then. cbv zeta. unfold SecureMapFactory.getMapForId.
  pose proof (run_getMapForId_outcome P id κ μ) as Hout.
  destruct (run P (_getMapForId id) κ μ) as [[sm|e] κ' μ' log]; simpl in *.
  - destruct Hout as (-> & _ & ->). rewrite app_nil_r, evicted_ensured.
    repeat split; [apply is_fresh|].
    unfold Locker.get_evicted. simpl. by rewrite lookup_insert_eq.
  - by subst μ'.
Qed.

Lemma str_String a s : str (String a s) = N_of_ascii a :: str s.
Proof. done. Qed.

Lemma pretty_N_char_digit x : digit (N_of_ascii (pretty_N_char x)).
Proof. unfold pretty_N_char, digit. repeat case_match; vm_compute; by split. Qed.

Lemma pretty_N_go_digits x s :
  Forall digit (str s) → Forall digit (str (pretty_N_go x s)).
Proof.
  revert s. induction (N.lt_wf_0 x) as [x _ IH]; intros s Hs.
  assert (x = 0 ∨ 0 < x)%N as [->|?] by lia.
  - by rewrite pretty_N_go_0.
  - rewrite pretty_N_go_step by done. apply IH; [by apply N.div_lt|].
    rewrite str_String. constructor; [apply pretty_N_char_digit | done].
Qed.

Lemma pretty_N_go_nonempty x s : s ≠ "" → pretty_N_go x s ≠ "".
Proof.
  revert s. induction (N.lt_wf_0 x) as [x _ IH]; intros s Hs.
  assert (x = 0 ∨ 0 < x)%N as [->|?] by lia.
  - by rewrite pretty_N_go_0.
  - rewrite pretty_N_go_step by done. apply IH; [by apply N.div_lt | done].
Qed.

Lemma str_nil s : str s = [] → s = "".
Proof. by destruct s. Qed.

Lemma timestamp_digits now : timestamp now ≠ [] ∧ Forall digit (timestamp now).
Proof.
  unfold timestamp, pretty, pretty_N. case_decide as H0.
  - split; [done|]. change (str "0") with [48%N]. repeat constructor; by vm_compute.
  - split.
    + intros Hnil%str_nil. revert Hnil.
      rewrite pretty_N_go_step by lia. by apply pretty_N_go_nonempty.
    + apply pretty_N_go_digits. constructor.
Qed.

Lemma str_inj s1 s2 : str s1 = str s2 → s1 = s2.
Proof.
  revert s2. induction s1 as [|a s1 IH]; intros [|b s2]; try done.
  rewrite !str_String. intros [= Ha Hs]. f_equal; [|by apply IH].
  by rewrite <- (ascii_N_embedding a), <- (ascii_N_embedding b), Ha.
Qed.

Lemma timestamp_inj now now' : timestamp now = timestamp now' → now = now'.
Proof. intros H%str_inj. by apply (inj pretty). Qed.

(** X18: the tag of a non-common locker, four generated letters followed by
    the decimal digits of [Date.now()], passes the key check when the draws
    lie in 0..25, and is never the common tag 'locker'. Two such tags are
    equal only if both the letters and the clock value agree, so lockers
    acquired at different clock values get different key tags in the
    keychain. *)
Theorem private_tags_are_valid_and_apart (now now' : N) (ρ ρ' : entropy)
    (drawn drawn' : nat) :
  let id := acquiredTag false now ρ drawn in
  let id' := acquiredTag false now' ρ' drawn' in
  (in_range ρ → _keyCheck id = true) ∧
  id ≠ acquiredTag true now ρ drawn ∧
  (id = id' → letters ρ drawn 4 = letters ρ' drawn' 4 ∧ now = now') ∧
  (now ≠ now' → _getInternalId id ≠ _getInternalId id').
Proof.
  intros id id'. subst id id'. unfold acquiredTag.
  destruct (timestamp_digits now) as [Hne Hdig].
  assert (Hinj : letters ρ drawn 4 ++ timestamp now =
                 letters ρ' drawn' 4 ++ timestamp now' →
                 letters ρ drawn 4 = letters ρ' drawn' 4 ∧ now = now').
  { intros H. apply app_inj_1 in H as [H1 H2]; [|by rewrite !length_letters].
    split; [done | by apply timestamp_inj]. }
  split; [|split; [|split]].
  - intros Hρ. unfold _keyCheck. apply andb_true_intro. split.
    + rewrite bool_decide_false; [done|]. intros H%(f_equal length).
      rewrite length_app, length_letters in H. simpl in H. lia.
    + apply negb_true_iff. rewrite existsb_app. apply orb_false_intro.
      * apply lowercase_no_whitespace, lowercase_letters. intros. apply Hρ.
      * apply printable_no_whitespace. eapply Forall_impl; [exact Hdig|].
        unfold digit. intros c Hc. simpl in *. lia.
  - intros H. destruct (timestamp now) as [|c s] eqn:Ht; [done|].
    apply Forall_cons in Hdig as [Hc _]. unfold digit in Hc.
    apply (f_equal (λ l, l !! 4%nat)) in H.
    rewrite lookup_app_r, length_letters in H by (rewrite length_letters; lia).
    vm_compute in H. injection H as ->. lia.
  - exact Hinj.
  - intros Hnow H%getInternalId_inj. by destruct (Hinj H).
Qed.

Lemma private_tags_are_valid_and_apart_witness :
  in_range zeros ∧ (1700000000000 ≠ 1700000000001)%N ∧
  _keyCheck (acquiredTag false 1700000000000 zeros 0) = true ∧
  _getInternalId (acquiredTag false 1700000000000 zeros 0) ≠
    _getInternalId (acquiredTag false 1700000000001 zeros 0).
Proof.
  assert (H2 : (1700000000000 ≠ 1700000000001)%N) by discriminate.
  pose proof (private_tags_are_valid_and_apart 1700000000000 1700000000001
                zeros zeros 0 0) as (Hvalid & _ & _ & Hapart).
  exact (conj zeros_in_range (conj H2 (conj (Hvalid zeros_in_range) (Hapart H2)))).
Defined.

(** ** Tags are checked before they get a collection *)

Lemma tags_checked_insert t c μ :
  _keyCheck t = true →
  tags_checked μ → tags_checked (assignTagMap (<[t := c]> (_staticTagMap μ)) μ).
Proof.
  intros Ht H t' c'. simpl. rewrite lookup_insert.
  case_decide; [by subst | apply H].
Qed.

Lemma tags_checked_set (t : jstring) (c : gmap jstring jstring) μ :
  _keyCheck t = true →
  tags_checked μ → tags_checked (assignTagMap (Map.set t c (_staticTagMap μ)) μ).
Proof. apply tags_checked_insert. Qed.

Lemma tags_checked_setIn t k v μ :
  _keyCheck t = true →
  tags_checked μ → tags_checked (assignTagMap (Map.setIn t k v (_staticTagMap μ)) μ).
Proof. apply tags_checked_insert. Qed.

Lemma tags_checked_remove t μ :
  tags_checked μ → tags_checked (assignTagMap (Map.remove t (_staticTagMap μ)) μ).
Proof.
  intros H t' c'. simpl. unfold Map.remove. rewrite lookup_delete.
  case_decide; [done | apply H].
Qed.

Lemma tags_checked_deleteIn t k μ :
  tags_checked μ → tags_checked (assignTagMap (Map.deleteIn t k (_staticTagMap μ)) μ).
Proof.
  intros H. unfold Map.deleteIn.
  destruct (_staticTagMap μ !! t) as [c|] eqn:Hc; [|by destruct μ].
  apply tags_checked_insert; [by eapply H | done].
Qed.

Lemma tags_checked_set_evicted this b μ :
  tags_checked μ → tags_checked (Locker.set_evicted this b μ).
Proof. done. Qed.

Lemma tags_checked_has t μ :
  tags_checked μ → Map.has t (_staticTagMap μ) = true → _keyCheck t = true.
Proof.
  unfold Map.has. intros H [c Hc]%bool_decide_eq_true. by eapply H.
Qed.

#[local] Hint Resolve tags_checked_set tags_checked_setIn tags_checked_remove
  tags_checked_deleteIn tags_checked_set_evicted : registry.

Lemma tagsafe_isIdInDeviceKeychain id :
  every_job keeps_tags_checked (_isIdInDeviceKeychain id).
Proof. unfold _isIdInDeviceKeychain, keeps_tags_checked. jobs; done. Qed.

Lemma tagsafe_getMapForId id : every_job keeps_tags_checked (_getMapForId id).
Proof.
  unfold _getMapForId, _isIdInDeviceKeychain, keeps_tags_checked.
  destruct (_keyCheck id) eqn:Hid; jobs; auto with registry.
Qed.

Lemma tagsafe_disposeKeysForId id μ p :
  (_disposeKeysForId id μ).1 = Return p → every_job keeps_tags_checked p.
Proof.
  unfold _disposeKeysForId, _isIdInDeviceKeychain, keeps_tags_checked.
  destruct (_keyCheck id); simpl; [|done]. intros [= <-]. jobs; auto with registry.
Qed.

Lemma tagsafe_retrieveItem this key remove μ p :
  (SecureMap.retrieveItem this key remove μ).1 = Return p →
  every_job keeps_tags_checked p.
Proof.
  unfold SecureMap.retrieveItem, keeps_tags_checked.
  repeat (case_match; simpl; try done); intros [= <-]; jobs; auto with registry.
Qed.

Lemma tagsafe_storeItem this key value μ p :
  tags_checked μ →
  (SecureMap.storeItem this key value μ).1 = Return p →
  every_job keeps_tags_checked p.
Proof.
  intros Hμ. unfold SecureMap.storeItem, keeps_tags_checked.
  destruct (_keyCheck key); simpl; [|done].
  destruct (Map.has (tag this) (_staticTagMap μ)) eqn:Hhas; simpl; [|done].
  pose proof (tags_checked_has _ _ Hμ Hhas) as Htag.
  destruct (Map.hasIn _ _ _); simpl; [done|].
  intros [= <-]. jobs; auto with registry.
Qed.

Lemma tagsafe_isEvicted this μ p :
  (Locker.isEvicted this μ).1 = Return p → every_job keeps_tags_checked p.
Proof.
  unfold Locker.isEvicted, SecureMapFactory.isIdInDeviceKeychain,
    _isIdInDeviceKeychain, keeps_tags_checked.
  repeat (case_match; simpl; try done); intros [= <-]; jobs; auto with registry.
Qed.

Lemma tagsafe_evict this μ p :
  (Locker.evict this μ).1 = Return p → every_job keeps_tags_checked p.
Proof.
  unfold Locker.evict, SecureMapFactory.disposeKeysForId.
  destruct (_disposeKeysForId (Locker.id this) μ) as [[q|e] μ'] eqn:Hd; simpl; [|done].
  intros [= <-]. apply every_job_then.
  - eapply tagsafe_disposeKeysForId. by rewrite Hd.
  - unfold keeps_tags_checked. jobs; auto with registry.
Qed.

Lemma begin_tagsafe c μ :
  tags_checked μ →
  tags_checked (begin c μ).2 ∧ Forall task_tagsafe (option_list (begin c μ).1).
Proof.
  intros Hμ. destruct c; simpl; unfold spawned, returned.
  - pose proof (tagsafe_disposeKeysForId id μ) as H.
    unfold SecureMapFactory.disposeKeysForId.
    split; [unfold _disposeKeysForId; by destruct (negb _)|].
    destruct (_disposeKeysForId id μ).1; simpl; [|constructor].
    apply Forall_singleton. by apply (H _ eq_refl).
  - split; [done|]. apply Forall_singleton. apply tagsafe_getMapForId.
  - split; [done|]. apply Forall_singleton. apply tagsafe_isIdInDeviceKeychain.
  - split; [|constructor]. unfold SecureMap.size. by destruct (negb _).
  - split; [|constructor]. unfold SecureMap.empty.
    destruct (_staticTagMap μ !! tag this) eqn:Hc; simpl; [|done].
    apply tags_checked_set; [by eapply Hμ | done].
  - split; [|constructor]. unfold SecureMap.hasItem. by destruct (negb _).
  - pose proof (tagsafe_retrieveItem this key remove μ) as H.
    split; [unfold SecureMap.retrieveItem; by repeat case_match|].
    destruct (SecureMap.retrieveItem this key remove μ).1; simpl; [|constructor].
    apply Forall_singleton. by apply (H _ eq_refl).
  - pose proof (tagsafe_storeItem this key value μ) as H.
    split; [unfold SecureMap.storeItem; by repeat case_match|].
    destruct (SecureMap.storeItem this key value μ).1; simpl; [|constructor].
    apply Forall_singleton. by apply (H _ Hμ eq_refl).
  - split; [|constructor]. done.
  - pose proof (tagsafe_isEvicted this μ) as H.
    split; [unfold Locker.isEvicted; by repeat case_match|].
    destruct (Locker.isEvicted this μ).1; simpl; [|constructor].
    apply Forall_singleton. by apply (H _ eq_refl).
  - pose proof (tagsafe_evict this μ) as H.
    split.
    { unfold Locker.evict, SecureMapFactory.disposeKeysForId, _disposeKeysForId.
      by destruct (negb _). }
    destruct (Locker.evict this μ).1; simpl; [|constructor].
    apply Forall_singleton. by apply (H _ eq_refl).
  - split; [|constructor].
    unfold Locker.keyInUse, SecureMap.hasItem. by destruct (negb _).
  - pose proof (tagsafe_retrieveItem (store this) key true μ) as H.
    unfold Locker.retrieveItem.
    split; [unfold SecureMap.retrieveItem; by repeat case_match|].
    destruct (SecureMap.retrieveItem (store this) key true μ).1; simpl; [|constructor].
    apply Forall_singleton. by apply (H _ eq_refl).
Qed.

Lemma step_tagsafe {P} (s s' : system P) :
  step s s' → system_tagsafe s → system_tagsafe s'.
Proof.
  intros Hstep [Hμ Hp].
  destruct Hstep as [c s | i s A R c k Hi | i s A job Hi]; simpl.
  - destruct (begin_tagsafe c (mem s) Hμ) as [H1 H2]. split; [done|].
    by apply Forall_app.
  - split; [done|]. apply Forall_insert; [done|].
    apply (Forall_lookup_1 _ _ _ _ Hp) in Hi. apply Hi.
  - apply (Forall_lookup_1 _ _ _ _ Hp) in Hi. simpl in Hi. specialize (Hi (mem s)).
    destruct Hi as [HQ Hj]. split; [by apply HQ|]. by apply Forall_insert.
Qed.

Lemma reachable_tagsafe {P} (s : system P) : reachable s → system_tagsafe s.
Proof.
  intros [κ0 Hrtc].
  assert (H0 : system_tagsafe (System κ0 freshMemory [])).
  { split; [|constructor]. intros t c. simpl. by rewrite lookup_empty. }
  induction Hrtc as [|s1 s2 s3 Hstep _ IH]; [done|]. apply IH. by eapply step_tagsafe.
Qed.

(** X19: in every state that the module's operations can reach from the
    initial memory, under any interleaving of calls and callbacks and with
    any keychain, every tag that has a collection passes the key check, and
    so does every key of every collection. *)
Theorem reachable_tags_and_keys_pass_the_key_check (P : Provider) (s : system P) :
  reachable s →
  ∀ t c, _staticTagMap (mem s) !! t = Some c →
    _keyCheck t = true ∧ ∀ k v, c !! k = Some v → _keyCheck k = true.
Proof.
  intros Hs t c Hc.
  destruct (reachable_tagsafe s Hs) as [Htags _].
  destruct (reachable_safe s Hs) as [Hkeys _].
  split; [by eapply Htags | intros k v Hk; by eapply Hkeys].
Qed.

Lemma reachable_tags_and_keys_pass_the_key_check_witness :
  let c : gmap jstring jstring := {[str "k" := reverse (str "secret")]} in
  reachable stored ∧
  _staticTagMap (mem stored) !! LOCKER_TAG = Some c ∧
  _keyCheck LOCKER_TAG = true.
Proof.
  intros c.
  assert (Hreach : reachable stored) by apply exec_reachable, acquired_reachable.
  assert (Hc : _staticTagMap (mem stored) !! LOCKER_TAG = Some c)
    by (vm_compute; reflexivity).
  exact (conj Hreach (conj Hc (proj1
    (reachable_tags_and_keys_pass_the_key_check deviceKeychain stored Hreach
       LOCKER_TAG c Hc)))).
Defined.
